(** * Detection post-processing: IoU, greedy non-maximum suppression and
      the score-filter / re-labelling pipeline of [src/main.py].

    Numbers are modelled as exact rationals ([Q]); Python's [==], [<] and
    [>=] on numbers are the numeric comparisons [Qeq_bool], [Qltb] and
    [Qle_bool].  These are the values the source computes as long as no
    operation rounds, overflows or wraps around; what the statements say of
    them rests on the comparisons and the control flow.  Where a statement
    is about the arithmetic itself, [iou] is also given in binary64
    ([iou64]).  Python exceptions are modelled by an error monad. *)

From Stdlib Require Import String.
From Stdlib Require Import List Arith ZArith QArith Lia Lqa.
From Stdlib Require Import Permutation Sorted Bool.
From Stdlib Require Floats.
From Equations Require Import Equations.
Import ListNotations.

Local Open Scope Q_scope.

(** ** Python runtime fragments used by the source *)

Module Py.

(** The exceptions the modelled statements can raise. *)
Inductive exn : Type :=
| ZeroDivisionError   (* [a / b] with [b == 0] *)
| IndexError          (* [l[i]] with [i] out of range *)
| ValueError.         (* [a, b = v] when [v] does not hold two items *)

Inductive result (A : Type) : Type :=
| Ok (a : A)
| Err (e : exn).
Arguments Ok {A} a.
Arguments Err {A} e.

Definition ret {A} (a : A) : result A := Ok a.
Definition raise {A} (e : exn) : result A := Err e.

Definition bind {A B} (m : result A) (k : A -> result B) : result B :=
  match m with
  | Ok a => k a
  | Err e => Err e
  end.

(** [l[i]]. *)
Definition getitem {A} (l : list A) (i : nat) : result A :=
  match nth_error l i with
  | Some a => Ok a
  | None => Err IndexError
  end.

(** A list comprehension [[f x for x in l]] whose body may raise. *)
Fixpoint mapM {A B} (f : A -> result B) (l : list A) : result (list B) :=
  match l with
  | [] => Ok []
  | x :: l' =>
      bind (f x) (fun y => bind (mapM f l') (fun ys => Ok (y :: ys)))
  end.

(** [a < b] on numbers. *)
Definition Qltb (a b : Q) : bool := negb (Qle_bool b a).

(** The builtin [max(a, b)]: the first argument unless the second is
    strictly greater. *)
Definition max (a b : Q) : Q := if Qltb a b then b else a.

(** The builtin [min(a, b)]: the first argument unless the second is
    strictly smaller. *)
Definition min (a b : Q) : Q := if Qltb b a then b else a.

(** [a / b]. *)
Definition truediv (a b : Q) : result Q :=
  if Qeq_bool b 0 then raise ZeroDivisionError else ret (a / b).

(** [np.where(mask)[0]]: the positions at which [mask] is true, counted
    from [start]. *)
Fixpoint where_from (start : nat) (mask : list bool) : list nat :=
  match mask with
  | [] => []
  | true :: m => start :: where_from (S start) m
  | false :: m => where_from (S start) m
  end.

Definition where_ (mask : list bool) : list nat := where_from 0 mask.

(** [arr[indices]] with an integer index array. *)
Definition take {A} (arr : list A) (indices : list nat) : result (list A) :=
  mapM (getitem arr) indices.

End Py.

Import Py.

Notation "x <- m ;; k" := (bind m (fun x => k))
  (at level 61, m at next level, right associativity).

(** ** Geometry *)

(** Box format: [[x1, y1, x2, y2]]. *)
Record Box : Type := mkBox { bx1 : Q; by1 : Q; bx2 : Q; by2 : Q }.

(** [iou(box1, box2)], lines 3-25, in exact arithmetic: the value returned
    when every operation below is carried out without rounding, overflow or
    wrap-around.  [iou64] is the same function on binary64 numbers. *)
Definition iou (box1 box2 : Box) : result Q :=
  let x1_inter := Py.max (bx1 box1) (bx1 box2) in
  let y1_inter := Py.max (by1 box1) (by1 box2) in
  let x2_inter := Py.min (bx2 box1) (bx2 box2) in
  let y2_inter := Py.min (by2 box1) (by2 box2) in
  let inter_width := Py.max 0 (x2_inter - x1_inter) in
  let inter_height := Py.max 0 (y2_inter - y1_inter) in
  let inter_area := inter_width * inter_height in
  let box1_area := (bx2 box1 - bx1 box1) * (by2 box1 - by1 box1) in
  let box2_area := (bx2 box2 - bx1 box2) * (by2 box2 - by1 box2) in
  let union_area := box1_area + box2_area - inter_area in
  if Qeq_bool union_area 0 then ret 0
  else truediv inter_area union_area.

(** The intermediate quantities of [iou], named for the statements. *)
Definition box_area (b : Box) : Q := (bx2 b - bx1 b) * (by2 b - by1 b).

Definition intersection_area (box1 box2 : Box) : Q :=
  Py.max 0 (Py.min (bx2 box1) (bx2 box2) - Py.max (bx1 box1) (bx1 box2))
  * Py.max 0 (Py.min (by2 box1) (by2 box2) - Py.max (by1 box1) (by1 box2)).

Definition union_area (box1 box2 : Box) : Q :=
  box_area box1 + box_area box2 - intersection_area box1 box2.

(** The value [iou] returns (in exact arithmetic), as a total function. *)
Definition iou_val (box1 box2 : Box) : Q :=
  if Qeq_bool (union_area box1 box2) 0 then 0
  else intersection_area box1 box2 / union_area box1 box2.

(** ** Greedy non-maximum suppression *)

(** What [non_max_suppression] hands back: the bare [[]] of line 35, or the
    pair of lists of line 60. *)
Inductive nms_return : Type :=
| EmptyList
| BoxesScores (boxes : list Box) (scores : list Q).

(** Lines 53-58: the IoU of the kept box with every remaining candidate, the
    positions whose IoU is below the threshold, and the candidates at those
    positions. *)
Definition suppress_round (boxes : list Box) (iou_threshold : Q)
    (best_box_idx : nat) (sorted_indices : list nat) : result (list nat) :=
  ious <- mapM (fun idx =>
                  b1 <- getitem boxes best_box_idx ;;
                  b2 <- getitem boxes idx ;;
                  iou b1 b2) sorted_indices ;;
  let remaining_indices :=
    where_ (map (fun v => Qltb v iou_threshold) ious) in
  take sorted_indices remaining_indices.

(** A value together with the equation that it is the one computed. *)
Definition inspect {A : Type} (x : A) : {y : A | x = y} := exist _ x eq_refl.

(** The [while] loop of lines 42-58.  [sorted_indices] are the candidates
    still to visit and [keep_boxes] the indices kept so far; the loop ends
    because every round drops at least the visited candidate. *)
Equations? nms_loop (boxes : list Box) (iou_threshold : Q)
    (sorted_indices keep_boxes : list nat) : result (list nat)
    by wf (length sorted_indices) lt :=
  nms_loop boxes t [] keep := ret keep;
  nms_loop boxes t [best_box_idx] keep := ret (keep ++ [best_box_idx]);
  nms_loop boxes t (best_box_idx :: idx :: rest) keep
    with inspect (suppress_round boxes t best_box_idx (idx :: rest)) := {
    | exist _ (Err e) _ => Err e;
    | exist _ (Ok next) Hround =>
        nms_loop boxes t next (keep ++ [best_box_idx]) }.
Proof.
  (* the comprehension returns one IoU per candidate, [where_] at most one
     position per IoU, and the indexing one candidate per position *)
  assert (Hmap : forall (A B : Type) (f : A -> result B) l r,
             mapM f l = Ok r -> length r = length l).
  { intros A B f xs. induction xs as [| x xs IH]; simpl; intros r H.
    - injection H as <-. reflexivity.
    - destruct (f x) as [y |]; simpl in H; [| discriminate].
      destruct (mapM f xs) as [ys |]; simpl in H; [| discriminate].
      injection H as <-. simpl. f_equal. apply IH. reflexivity. }
  assert (Hwhere : forall mask start,
             (length (where_from start mask) <= length mask)%nat).
  { intros mask. induction mask as [| [|] m IH]; simpl; intros start;
      [lia | specialize (IH (S start)); lia | specialize (IH (S start)); lia]. }
  unfold suppress_round, take, where_ in Hround.
  destruct (mapM _ (idx :: rest)) as [ious |] eqn:E; simpl in Hround;
    [| discriminate].
  apply Hmap in Hround. apply Hmap in E.
  specialize (Hwhere (map (fun v => Qltb v t) ious) 0%nat).
  rewrite length_map in Hwhere. simpl in *. lia.
Qed.

(** The box read when an index is known to be in range. *)
Definition no_box : Box := mkBox 0 0 0 0.

(** The test of line 57 for candidate [idx] against the kept box [best]. *)
Definition below_threshold (boxes : list Box) (iou_threshold : Q)
    (best idx : nat) : bool :=
  Qltb (iou_val (nth best boxes no_box) (nth idx boxes no_box)) iou_threshold.

(** The indices the loop keeps, as a function of the candidates: the first
    candidate, then what the loop keeps of the candidates below the
    threshold against it.  [nms_loop_greedy] shows that the loop computes
    it. *)
Equations? greedy_keep (boxes : list Box) (iou_threshold : Q)
    (sorted_indices : list nat) : list nat
    by wf (length sorted_indices) lt :=
  greedy_keep boxes t [] := [];
  greedy_keep boxes t (best :: rest) :=
    best :: greedy_keep boxes t (filter (below_threshold boxes t best) rest).
Proof.
  simpl. pose proof (filter_length_le (below_threshold boxes t best) rest). lia.
Qed.

Section WithArgsort.

(** [np.argsort], NumPy's ascending index sort, is not part of this
    repository; the suppression is stated over any such function. *)
Variable argsort : list Q -> list nat.

(** Line 38: [np.argsort(scores)[::-1]]. *)
Definition processing_order (scores : list Q) : list nat :=
  rev (argsort scores).

(** The indices [keep_boxes] holds when the loop is left. *)
Definition nms_keep (boxes : list Box) (scores : list Q) (iou_threshold : Q)
  : result (list nat) :=
  nms_loop boxes iou_threshold (processing_order scores) [].

(** [non_max_suppression(boxes, scores, iou_threshold)], lines 27-60. *)
Definition non_max_suppression (boxes : list Box) (scores : list Q)
    (iou_threshold : Q) : result nms_return :=
  if (length boxes =? 0)%nat then ret EmptyList
  else
    keep_boxes <- nms_keep boxes scores iou_threshold ;;
    bs <- mapM (getitem boxes) keep_boxes ;;
    ss <- mapM (getitem scores) keep_boxes ;;
    ret (BoxesScores bs ss).

End WithArgsort.

(** The contract of [np.argsort]: the indices of the array, each once,
    arranged so that the values they point at never decrease. *)
Definition argsort_spec (argsort : list Q -> list nat) : Prop :=
  forall scores,
    Permutation (argsort scores) (seq 0 (length scores))
    /\ StronglySorted (fun i j => nth i scores 0 <= nth j scores 0)
         (argsort scores).

(** Insertion of index [i] before the first index of [sorted] whose score
    is strictly greater. *)
Fixpoint insert_index (scores : list Q) (i : nat) (sorted : list nat)
  : list nat :=
  match sorted with
  | [] => [i]
  | j :: rest =>
      if Qltb (nth i scores 0) (nth j scores 0) then i :: j :: rest
      else j :: insert_index scores i rest
  end.

(** An [argsort] that leaves equal scores in input order: insertion sort,
    which is what NumPy's default sort runs on short arrays. *)
Definition stable_argsort (scores : list Q) : list nat :=
  fold_left (fun sorted i => insert_index scores i sorted)
    (seq 0 (length scores)) [].

(** [i] may stand before [j] in a stable ascending order: its score is not
    greater, and on equal scores it is the smaller index. *)
Definition stable_le (scores : list Q) (i j : nat) : Prop :=
  nth i scores 0 <= nth j scores 0
  /\ (nth j scores 0 <= nth i scores 0 -> (i < j)%nat).

(** No two detections of the pool have equal scores. *)
Definition no_ties (scores : list Q) : Prop :=
  forall i j, (i < j)%nat -> (j < length scores)%nat ->
              ~ nth i scores 0 == nth j scores 0.

(** The detections a returned value holds, each box with its score. *)
Definition detections (r : nms_return) : list (Box * Q) :=
  match r with
  | EmptyList => []
  | BoxesScores bs ss => combine bs ss
  end.

(** Running [non_max_suppression] again on what it returned. *)
Definition resuppress (argsort : list Q -> list nat) (r : nms_return)
    (iou_threshold : Q) : result nms_return :=
  match r with
  | EmptyList => non_max_suppression argsort [] [] iou_threshold
  | BoxesScores bs ss => non_max_suppression argsort bs ss iou_threshold
  end.

(** ** The pipeline of [main] *)

(** A row [[x1, y1, x2, y2, score, class_id, class_name]]. *)
Record Prediction : Type := mkPrediction {
  px1 : Q; py1 : Q; px2 : Q; py2 : Q;
  pscore : Q;
  pclass_id : Z;
  pclass_name : string }.

(** [p[:4]]. *)
Definition box_of (p : Prediction) : Box :=
  mkBox (px1 p) (py1 p) (px2 p) (py2 p).

(** The four parallel arrays [main] keeps. *)
Record Columns : Type := mkColumns {
  c_boxes : list Box;
  c_scores : list Q;
  c_class_ids : list Z;
  c_class_names : list string }.

(** Lines 110-113. *)
Definition split_columns (raw_predictions : list Prediction) : Columns :=
  mkColumns (map box_of raw_predictions) (map pscore raw_predictions)
    (map pclass_id raw_predictions) (map pclass_name raw_predictions).

(** Lines 116-122: the score filter. *)
Definition score_filter (cols : Columns) (score_threshold : Q)
  : result Columns :=
  let high_confidence_indices :=
    where_ (map (fun s => Qle_bool score_threshold s) (c_scores cols)) in
  filtered_boxes <- take (c_boxes cols) high_confidence_indices ;;
  filtered_scores <- take (c_scores cols) high_confidence_indices ;;
  filtered_class_ids <- take (c_class_ids cols) high_confidence_indices ;;
  filtered_class_names <-
    mapM (getitem (c_class_names cols)) high_confidence_indices ;;
  ret (mkColumns filtered_boxes filtered_scores filtered_class_ids
         filtered_class_names).

(** [a, b = v] at line 134. *)
Definition unpack_pair (v : nms_return) : result (list Box * list Q) :=
  match v with
  | EmptyList => raise ValueError
  | BoxesScores bs ss => ret (bs, ss)
  end.

(** [np.array_equal(a, b)] on two boxes. *)
Definition array_equal (a b : Box) : bool :=
  Qeq_bool (bx1 a) (bx1 b) && Qeq_bool (by1 a) (by1 b)
  && Qeq_bool (bx2 a) (bx2 b) && Qeq_bool (by2 a) (by2 b).

(** The test of line 117 on a detection. *)
Definition passes (score_threshold : Q) (p : Prediction) : bool :=
  Qle_bool score_threshold (pscore p).

(** The test of line 145 against a filtered detection. *)
Definition same_box_score (final_box : Box) (final_score : Q)
    (p : Prediction) : bool :=
  array_equal final_box (box_of p) && Qeq_bool final_score (pscore p).

(** The row appended at lines 146-149 when [p] is the filtered detection
    found. *)
Definition with_class_of (final_box : Box) (final_score : Q)
    (p : Prediction) : Prediction :=
  mkPrediction (bx1 final_box) (by1 final_box) (bx2 final_box)
    (by2 final_box) final_score (pclass_id p) (pclass_name p).

(** What one pass of the outer loop appends. *)
Definition relabelled (filtered : list Prediction) (final : Box * Q)
  : list Prediction :=
  match find (same_box_score (fst final) (snd final)) filtered with
  | Some p => [with_class_of (fst final) (snd final) p]
  | None => []
  end.

(** Lines 144-150: the inner [for i in range(len(filtered_boxes))], left at
    the first [i] whose box and score equal the final ones. *)
Fixpoint find_class (filtered : Columns) (final_box : Box) (final_score : Q)
    (range : list nat) : result (option Prediction) :=
  match range with
  | [] => ret None
  | i :: range' =>
      b <- getitem (c_boxes filtered) i ;;
      if array_equal final_box b then
        s <- getitem (c_scores filtered) i ;;
        if Qeq_bool final_score s then
          cid <- getitem (c_class_ids filtered) i ;;
          cname <- getitem (c_class_names filtered) i ;;
          ret (Some (mkPrediction (bx1 final_box) (by1 final_box)
                       (bx2 final_box) (by2 final_box) final_score cid cname))
        else find_class filtered final_box final_score range'
      else find_class filtered final_box final_score range'
  end.

(** Lines 143-150: the outer loop over [zip(final_boxes, final_scores)]. *)
Fixpoint reassemble (filtered : Columns) (finals : list (Box * Q))
    (final_predictions_with_classes : list Prediction)
  : result (list Prediction) :=
  match finals with
  | [] => ret final_predictions_with_classes
  | (final_box, final_score) :: finals' =>
      found <- find_class filtered final_box final_score
                 (seq 0 (length (c_boxes filtered))) ;;
      match found with
      | Some p =>
          reassemble filtered finals' (final_predictions_with_classes ++ [p])
      | None => reassemble filtered finals' final_predictions_with_classes
      end
  end.

(** Lines 110-150 of [main], with the raw predictions and the two
    thresholds as arguments; the printing is left out. *)
Definition pipeline (argsort : list Q -> list nat)
    (raw_predictions : list Prediction) (score_threshold iou_threshold : Q)
  : result (list Prediction) :=
  filtered <- score_filter (split_columns raw_predictions) score_threshold ;;
  r <- non_max_suppression argsort (c_boxes filtered) (c_scores filtered)
         iou_threshold ;;
  fs <- unpack_pair r ;;
  reassemble filtered (combine (fst fs) (snd fs)) [].

(** The row read when a position is known to be in range. *)
Definition no_prediction : Prediction :=
  mkPrediction 0 0 0 0 0 0 EmptyString.

(** The sample data of lines 85-102. *)
Definition raw_predictions : list Prediction :=
  [ mkPrediction 55 55 145 195 (95 # 100) 0 "người"%string;
    mkPrediction 60 60 160 210 (88 # 100) 0 "người"%string;
    mkPrediction 205 105 295 245 (92 # 100) 0 "người"%string;
    mkPrediction 200 100 300 250 (70 # 100) 0 "người"%string;
    mkPrediction 405 205 545 395 (90 # 100) 1 "xe"%string;
    mkPrediction 410 210 560 410 (65 # 100) 1 "xe"%string;
    mkPrediction 10 10 30 30 (30 # 100) 0 "người"%string;
    mkPrediction 500 10 550 60 (80 # 100) 0 "người"%string ].

(** [main()]: lines 116 and 133 set both thresholds to 0.5. *)
Definition main (argsort : list Q -> list nat) : result (list Prediction) :=
  pipeline argsort raw_predictions (1 # 2) (1 # 2).

(** ** The geometry in binary64 *)

(** Binary64 arithmetic with Python's operators on [float]. *)
Module F64.
Import SpecFloat.

(** A binary64 number, as the IEEE 754 specification of the Standard
    Library describes it. *)
Definition f64 : Type := spec_float.

Definition prec : Z := 53.
Definition emax : Z := 1024.

Definition zero : f64 := S754_zero false.
Definition add : f64 -> f64 -> f64 := SFadd prec emax.
Definition sub : f64 -> f64 -> f64 := SFsub prec emax.
Definition mul : f64 -> f64 -> f64 := SFmul prec emax.
Definition div : f64 -> f64 -> f64 := SFdiv prec emax.
Definition ltb : f64 -> f64 -> bool := SFltb.
Definition eqb : f64 -> f64 -> bool := SFeqb.

(** The builtins [max(a, b)] and [min(a, b)], as in [Py]. *)
Definition max (a b : f64) : f64 := if ltb a b then b else a.
Definition min (a b : f64) : f64 := if ltb b a then b else a.

(** [a / b] on two [float]s. *)
Definition truediv (a b : f64) : result f64 :=
  if eqb b zero then raise ZeroDivisionError else ret (div a b).

End F64.

(** A box of four binary64 coordinates. *)
Record Box64 : Type := mkBox64 {
  fx1 : F64.f64; fy1 : F64.f64; fx2 : F64.f64; fy2 : F64.f64 }.

(** [iou(box1, box2)], lines 3-25, on binary64 boxes; the integer 0 of
    lines 13, 14 and 24 is the binary64 zero. *)
Definition iou64 (box1 box2 : Box64) : result F64.f64 :=
  let x1_inter := F64.max (fx1 box1) (fx1 box2) in
  let y1_inter := F64.max (fy1 box1) (fy1 box2) in
  let x2_inter := F64.min (fx2 box1) (fx2 box2) in
  let y2_inter := F64.min (fy2 box1) (fy2 box2) in
  let inter_width := F64.max F64.zero (F64.sub x2_inter x1_inter) in
  let inter_height := F64.max F64.zero (F64.sub y2_inter y1_inter) in
  let inter_area := F64.mul inter_width inter_height in
  let box1_area :=
    F64.mul (F64.sub (fx2 box1) (fx1 box1)) (F64.sub (fy2 box1) (fy1 box1)) in
  let box2_area :=
    F64.mul (F64.sub (fx2 box2) (fx1 box2)) (F64.sub (fy2 box2) (fy1 box2)) in
  let union_area := F64.sub (F64.add box1_area box2_area) inter_area in
  if F64.eqb union_area F64.zero then ret F64.zero
  else F64.truediv inter_area union_area.

(** Two binary64 values that are the same number: identical, or both a
    zero (of either sign).  NaN only goes with NaN. *)
Definition same_number (a b : F64.f64) : Prop :=
  a = b
  \/ (exists s s', a = SpecFloat.S754_zero s /\ b = SpecFloat.S754_zero s').

(** The value is NaN. *)
Definition is_nan (a : F64.f64) : bool :=
  match a with SpecFloat.S754_nan => true | _ => false end.

(** The intermediate quantities of [iou64] and the value it returns. *)
Definition area64 (b : Box64) : F64.f64 :=
  F64.mul (F64.sub (fx2 b) (fx1 b)) (F64.sub (fy2 b) (fy1 b)).

Definition intersection64 (box1 box2 : Box64) : F64.f64 :=
  F64.mul
    (F64.max F64.zero
       (F64.sub (F64.min (fx2 box1) (fx2 box2))
          (F64.max (fx1 box1) (fx1 box2))))
    (F64.max F64.zero
       (F64.sub (F64.min (fy2 box1) (fy2 box2))
          (F64.max (fy1 box1) (fy1 box2)))).

Definition union64 (box1 box2 : Box64) : F64.f64 :=
  F64.sub (F64.add (area64 box1) (area64 box2)) (intersection64 box1 box2).

Definition iou64_val (box1 box2 : Box64) : F64.f64 :=
  if F64.eqb (union64 box1 box2) F64.zero then F64.zero
  else F64.div (intersection64 box1 box2) (union64 box1 box2).

(** No coordinate of the box is NaN. *)
Definition no_nan (b : Box64) : Prop :=
  is_nan (fx1 b) = false /\ is_nan (fy1 b) = false
  /\ is_nan (fx2 b) = false /\ is_nan (fy2 b) = false.

(** Sample binary64 boxes: a box whose area overflows, and the first two
    boxes of the sample data. *)
Module Sample64.
Import PrimFloat.
#[warnings="-inexact-float"] Definition big : Box64 :=
  mkBox64 (FloatOps.Prim2SF 0) (FloatOps.Prim2SF 0)
    (FloatOps.Prim2SF 1e200) (FloatOps.Prim2SF 1e200).
Definition boxA : Box64 :=
  mkBox64 (FloatOps.Prim2SF 55) (FloatOps.Prim2SF 55)
    (FloatOps.Prim2SF 145) (FloatOps.Prim2SF 195).
Definition boxB : Box64 :=
  mkBox64 (FloatOps.Prim2SF 60) (FloatOps.Prim2SF 60)
    (FloatOps.Prim2SF 160) (FloatOps.Prim2SF 210).
End Sample64.

(** ** Notions used by the further properties *)

(** The box moved by [(dx, dy)]. *)
Definition translate (dx dy : Q) (b : Box) : Box :=
  mkBox (bx1 b + dx) (by1 b + dy) (bx2 b + dx) (by2 b + dy).

(** The overlap of two intervals, as [iou] computes it. *)
Definition overlap (lo1 hi1 lo2 hi2 : Q) : Q :=
  Py.max 0 (Py.min hi1 hi2 - Py.max lo1 lo2).

(** The greedy selection on the detections themselves, each a box with its
    score, in the order they are visited. *)
Equations? greedy_detections (iou_threshold : Q) (pool : list (Box * Q))
  : list (Box * Q) by wf (length pool) lt :=
  greedy_detections t [] := [];
  greedy_detections t (d :: rest) :=
    d :: greedy_detections t
           (filter (fun e => Qltb (iou_val (fst d) (fst e)) t) rest).
Proof.
  simpl.
  match goal with
  | |- context [filter ?f ?l] => pose proof (filter_length_le f l)
  end.
  lia.
Qed.

(** ** Basic facts *)

Lemma Qltb_lt (a b : Q) : Qltb a b = true <-> a < b.
Proof.
  unfold Qltb. rewrite negb_true_iff.
  destruct (Qle_bool b a) eqn:E.
  - apply Qle_bool_iff in E. split; [discriminate | intros H; lra].
  - split; [intros _ | reflexivity].
    destruct (Qlt_le_dec a b) as [H | H]; [exact H |].
    apply Qle_bool_iff in H. congruence.
Qed.

Lemma Qltb_ge (a b : Q) : Qltb a b = false <-> b <= a.
Proof.
  unfold Qltb. rewrite negb_false_iff. apply Qle_bool_iff.
Qed.

Lemma Qltb_compat (a a' b b' : Q) : a == a' -> b == b' -> Qltb a b = Qltb a' b'.
Proof.
  intros Ha Hb.
  destruct (Qltb a b) eqn:E1, (Qltb a' b') eqn:E2; try reflexivity.
  - apply Qltb_lt in E1. apply Qltb_ge in E2. lra.
  - apply Qltb_ge in E1. apply Qltb_lt in E2. lra.
Qed.

Lemma pymax_comm (a b : Q) : Py.max a b == Py.max b a.
Proof.
  unfold Py.max.
  destruct (Qltb a b) eqn:E1, (Qltb b a) eqn:E2;
    try apply Qltb_lt in E1; try apply Qltb_lt in E2;
    try apply Qltb_ge in E1; try apply Qltb_ge in E2; lra.
Qed.

Lemma pymin_comm (a b : Q) : Py.min a b == Py.min b a.
Proof.
  unfold Py.min.
  destruct (Qltb a b) eqn:E1, (Qltb b a) eqn:E2;
    try apply Qltb_lt in E1; try apply Qltb_lt in E2;
    try apply Qltb_ge in E1; try apply Qltb_ge in E2; lra.
Qed.

Lemma pymax_compat (a a' b b' : Q) :
  a == a' -> b == b' -> Py.max a b == Py.max a' b'.
Proof.
  intros Ha Hb. unfold Py.max. rewrite (Qltb_compat a a' b b' Ha Hb).
  destruct (Qltb a' b'); assumption.
Qed.

Lemma intersection_area_comm (A B : Box) :
  intersection_area A B == intersection_area B A.
Proof.
  unfold intersection_area.
  assert (Hx : Py.min (bx2 A) (bx2 B) - Py.max (bx1 A) (bx1 B)
               == Py.min (bx2 B) (bx2 A) - Py.max (bx1 B) (bx1 A)).
  { rewrite (pymin_comm (bx2 A)), (pymax_comm (bx1 A)). reflexivity. }
  assert (Hy : Py.min (by2 A) (by2 B) - Py.max (by1 A) (by1 B)
               == Py.min (by2 B) (by2 A) - Py.max (by1 B) (by1 A)).
  { rewrite (pymin_comm (by2 A)), (pymax_comm (by1 A)). reflexivity. }
  rewrite (pymax_compat 0 0 _ _ (Qeq_refl 0) Hx), (pymax_compat 0 0 _ _ (Qeq_refl 0) Hy).
  reflexivity.
Qed.

Lemma union_area_comm (A B : Box) : union_area A B == union_area B A.
Proof.
  unfold union_area. rewrite (intersection_area_comm A B). ring.
Qed.

Lemma Qeq_bool_compat (a a' b b' : Q) :
  a == a' -> b == b' -> Qeq_bool a b = Qeq_bool a' b'.
Proof.
  intros Ha Hb.
  destruct (Qeq_bool a b) eqn:E1, (Qeq_bool a' b') eqn:E2; try reflexivity.
  - apply Qeq_bool_iff in E1. apply Qeq_bool_neq in E2. exfalso. apply E2.
    rewrite <- Ha, <- Hb. exact E1.
  - apply Qeq_bool_iff in E2. apply Qeq_bool_neq in E1. exfalso. apply E1.
    rewrite Ha, Hb. exact E2.
Qed.

(** [iou] never raises: it returns [iou_val]. *)
Lemma iou_ok (A B : Box) : iou A B = Ok (iou_val A B).
Proof.
  unfold iou, iou_val, truediv.
  change (Py.max 0 (Py.min (bx2 A) (bx2 B) - Py.max (bx1 A) (bx1 B))
          * Py.max 0 (Py.min (by2 A) (by2 B) - Py.max (by1 A) (by1 B)))
    with (intersection_area A B).
  change ((bx2 A - bx1 A) * (by2 A - by1 A)) with (box_area A).
  change ((bx2 B - bx1 B) * (by2 B - by1 B)) with (box_area B).
  change (box_area A + box_area B - intersection_area A B)
    with (union_area A B).
  destruct (Qeq_bool (union_area A B) 0); reflexivity.
Qed.

Lemma iou_val_sym (A B : Box) : iou_val A B == iou_val B A.
Proof.
  unfold iou_val.
  rewrite (Qeq_bool_compat _ _ 0 0 (union_area_comm A B) (Qeq_refl 0)).
  destruct (Qeq_bool (union_area B A) 0); [reflexivity |].
  rewrite (intersection_area_comm A B), (union_area_comm A B). reflexivity.
Qed.

(** ** Lists, indices and the error monad *)

Lemma getitem_nth {A} (l : list A) (i : nat) (d : A) :
  (i < length l)%nat -> getitem l i = Ok (nth i l d).
Proof.
  intros H. unfold getitem.
  rewrite (nth_error_nth' l d H). reflexivity.
Qed.

Lemma mapM_ok {A B} (f : A -> result B) (g : A -> B) (l : list A) :
  Forall (fun x => f x = Ok (g x)) l -> mapM f l = Ok (map g l).
Proof.
  induction 1 as [| x l Hx _ IH]; simpl; [reflexivity |].
  rewrite Hx, IH. reflexivity.
Qed.

Lemma take_nth {A} (arr : list A) (indices : list nat) (d : A) :
  Forall (fun i => (i < length arr)%nat) indices ->
  take arr indices = Ok (map (fun i => nth i arr d) indices).
Proof.
  intros H. apply mapM_ok.
  eapply Forall_impl; [| exact H]. intros i Hi. apply getitem_nth, Hi.
Qed.

(** Indexing an array with the positions where a mask computed from it is
    true selects, in order, the entries the mask accepts. *)
Lemma take_where_from {A B} (g : A -> B) (f : A -> bool)
    (pre : list B) (l : list A) :
  take (pre ++ map g l) (where_from (length pre) (map f l))
  = Ok (map g (filter f l)).
Proof.
  revert pre. induction l as [| x l IH]; intros pre; [reflexivity |].
  assert (Hnext : take (pre ++ g x :: map g l)
                    (where_from (S (length pre)) (map f l))
                  = Ok (map g (filter f l))).
  { specialize (IH (pre ++ [g x])).
    rewrite <- app_assoc, length_app, Nat.add_1_r in IH. exact IH. }
  cbn [map filter where_from]. destruct (f x); [| exact Hnext].
  unfold take in *. cbn [mapM map]. rewrite Hnext.
  unfold getitem. rewrite nth_error_app2, Nat.sub_diag by lia. reflexivity.
Qed.

Lemma take_where_map {A B} (g : A -> B) (f : A -> bool) (l : list A) :
  take (map g l) (where_ (map f l)) = Ok (map g (filter f l)).
Proof. exact (take_where_from g f [] l). Qed.

Lemma take_where {A} (f : A -> bool) (l : list A) :
  take l (where_ (map f l)) = Ok (filter f l).
Proof.
  pose proof (take_where_map (fun x => x) f l) as H.
  rewrite !map_id in H. exact H.
Qed.

(** ** One round of suppression *)

Lemma suppress_round_filter boxes t best rest :
  (best < length boxes)%nat ->
  Forall (fun i => (i < length boxes)%nat) rest ->
  suppress_round boxes t best rest
  = Ok (filter (below_threshold boxes t best) rest).
Proof.
  intros Hb Hr. unfold suppress_round.
  rewrite (mapM_ok _ (fun idx => iou_val (nth best boxes no_box)
                                   (nth idx boxes no_box))).
  - simpl. rewrite map_map. apply (take_where (below_threshold boxes t best)).
  - eapply Forall_impl; [| exact Hr]. intros i Hi. simpl.
    rewrite (getitem_nth boxes best no_box Hb), (getitem_nth boxes i no_box Hi).
    simpl. apply iou_ok.
Qed.

Lemma nms_loop_cons boxes t best rest keep :
  nms_loop boxes t (best :: rest) keep =
  match suppress_round boxes t best rest with
  | Ok next => nms_loop boxes t next (keep ++ [best])
  | Err e => Err e
  end.
Proof.
  destruct rest as [| idx rest].
  - simp nms_loop. reflexivity.
  - simp nms_loop.
    destruct (inspect (suppress_round boxes t best (idx :: rest)))
      as [[next | e] H]; simp nms_loop; rewrite H; reflexivity.
Qed.

Lemma Forall_filter_keep {A} (P : A -> Prop) (f : A -> bool) (l : list A) :
  Forall P l -> Forall P (filter f l).
Proof.
  intros H. apply Forall_forall. intros x Hx.
  apply filter_In in Hx. rewrite Forall_forall in H. apply H, Hx.
Qed.

(** The loop returns, and what it keeps is [greedy_keep] of its candidates
    appended to what it had kept. *)
Lemma nms_loop_greedy boxes t idxs keep :
  Forall (fun i => (i < length boxes)%nat) idxs ->
  nms_loop boxes t idxs keep = Ok (keep ++ greedy_keep boxes t idxs).
Proof.
  revert keep. funelim (greedy_keep boxes t idxs); intros keep Hr.
  - simp nms_loop. rewrite app_nil_r. reflexivity.
  - inversion Hr as [| ? ? Hb Hrest]; subst.
    rewrite nms_loop_cons, (suppress_round_filter boxes t best rest Hb Hrest).
    rewrite H by (apply Forall_filter_keep; exact Hrest).
    rewrite <- app_assoc. reflexivity.
Qed.

(** ** What the greedy selection keeps *)

Lemma greedy_keep_In boxes t idxs x :
  In x (greedy_keep boxes t idxs) -> In x idxs.
Proof.
  funelim (greedy_keep boxes t idxs); simpl; [tauto |].
  intros [-> | Hin]; [left; reflexivity | right].
  apply H in Hin. apply filter_In in Hin. apply Hin.
Qed.

Lemma greedy_keep_below boxes t best rest x :
  In x (greedy_keep boxes t (filter (below_threshold boxes t best) rest)) ->
  below_threshold boxes t best x = true.
Proof.
  intros Hin. apply greedy_keep_In, filter_In in Hin. apply Hin.
Qed.

Lemma greedy_keep_NoDup boxes t idxs :
  NoDup idxs -> NoDup (greedy_keep boxes t idxs).
Proof.
  funelim (greedy_keep boxes t idxs); intros Hnd; [constructor |].
  inversion Hnd as [| ? ? Hnotin Hnd']; subst. constructor.
  - intros Hin. apply greedy_keep_In, filter_In in Hin. apply Hnotin, Hin.
  - apply H, NoDup_filter, Hnd'.
Qed.

Lemma StronglySorted_filter {A} (R : A -> A -> Prop) (f : A -> bool) l :
  StronglySorted R l -> StronglySorted R (filter f l).
Proof.
  induction 1 as [| a l Hs IH Hall]; simpl; [constructor |].
  destruct (f a); [| exact IH].
  constructor; [exact IH |]. apply Forall_filter_keep, Hall.
Qed.

Lemma greedy_keep_sorted (R : nat -> nat -> Prop) boxes t idxs :
  StronglySorted R idxs -> StronglySorted R (greedy_keep boxes t idxs).
Proof.
  funelim (greedy_keep boxes t idxs); intros Hs; [constructor |].
  inversion Hs as [| ? ? Hs' Hall]; subst. constructor.
  - apply H, StronglySorted_filter, Hs'.
  - apply Forall_forall. intros x Hin.
    apply greedy_keep_In, filter_In in Hin.
    rewrite Forall_forall in Hall. apply Hall, Hin.
Qed.

(** Every kept index is below the threshold against every index kept
    before it. *)
Lemma greedy_keep_pairwise boxes t idxs :
  ForallOrdPairs (fun a b => below_threshold boxes t a b = true)
    (greedy_keep boxes t idxs).
Proof.
  funelim (greedy_keep boxes t idxs); constructor.
  - apply Forall_forall. intros x Hin. eapply greedy_keep_below, Hin.
  - exact H.
Qed.

Lemma filter_all {A} (f : A -> bool) (l : list A) :
  Forall (fun x => f x = true) l -> filter f l = l.
Proof.
  induction 1 as [| x l Hx _ IH]; simpl; [reflexivity |].
  rewrite Hx, IH. reflexivity.
Qed.

(** Candidates that are pairwise below the threshold are all kept. *)
Lemma greedy_keep_all boxes t idxs :
  ForallOrdPairs (fun a b => below_threshold boxes t a b = true) idxs ->
  greedy_keep boxes t idxs = idxs.
Proof.
  induction 1 as [| a l Ha _ IH]; simp greedy_keep; [reflexivity |].
  rewrite (filter_all _ l Ha), IH. reflexivity.
Qed.

(** ** Facts about [argsort] *)

Section ArgsortFacts.

Variable argsort : list Q -> list nat.
Hypothesis argsort_ok : argsort_spec argsort.

Lemma processing_order_perm scores :
  Permutation (processing_order argsort scores) (seq 0 (length scores)).
Proof.
  unfold processing_order. rewrite <- Permutation_rev.
  apply (argsort_ok scores).
Qed.

Lemma processing_order_NoDup scores :
  NoDup (processing_order argsort scores).
Proof.
  eapply Permutation_NoDup; [symmetry; apply processing_order_perm |].
  apply seq_NoDup.
Qed.

Lemma processing_order_bound scores :
  Forall (fun i => (i < length scores)%nat) (processing_order argsort scores).
Proof.
  apply Forall_forall. intros i Hin.
  eapply Permutation_in in Hin; [| apply processing_order_perm].
  apply in_seq in Hin. lia.
Qed.

Lemma StronglySorted_snoc {A} (R : A -> A -> Prop) (l : list A) (a : A) :
  StronglySorted R l -> Forall (fun x => R x a) l ->
  StronglySorted R (l ++ [a]).
Proof.
  induction 1 as [| b l Hs IH Hall]; intros Ha; simpl.
  - repeat constructor.
  - inversion Ha; subst. constructor; [apply IH; assumption |].
    apply Forall_app. split; [assumption | repeat constructor; assumption].
Qed.

Lemma StronglySorted_rev {A} (R : A -> A -> Prop) (l : list A) :
  StronglySorted R l -> StronglySorted (fun a b => R b a) (rev l).
Proof.
  induction 1 as [| a l Hs IH Hall]; simpl; [constructor |].
  apply StronglySorted_snoc; [exact IH |]. apply Forall_rev, Hall.
Qed.

(** The processing order never goes up in score. *)
Lemma processing_order_descending scores :
  StronglySorted (fun i j => nth j scores 0 <= nth i scores 0)
    (processing_order argsort scores).
Proof.
  unfold processing_order.
  apply (StronglySorted_rev (fun i j => nth i scores 0 <= nth j scores 0)).
  apply (argsort_ok scores).
Qed.

(** The pair [non_max_suppression] returns on a non-empty pool. *)
Lemma non_max_suppression_greedy boxes scores t :
  boxes <> [] -> length boxes = length scores ->
  let keep := greedy_keep boxes t (processing_order argsort scores) in
  nms_keep argsort boxes scores t = Ok keep
  /\ non_max_suppression argsort boxes scores t
     = Ok (BoxesScores (map (fun i => nth i boxes no_box) keep)
             (map (fun i => nth i scores 0) keep)).
Proof.
  intros Hne Hlen keep.
  assert (Hbound : Forall (fun i => (i < length boxes)%nat)
                     (processing_order argsort scores)).
  { rewrite Hlen. apply processing_order_bound. }
  assert (Hkeep : nms_keep argsort boxes scores t = Ok keep).
  { unfold nms_keep. rewrite nms_loop_greedy by exact Hbound. reflexivity. }
  split; [exact Hkeep |].
  unfold non_max_suppression.
  destruct boxes as [| b boxes]; [contradiction |].
  cbn [length Nat.eqb]. rewrite Hkeep. cbn [bind].
  assert (Hin : Forall (fun i => (i < length (b :: boxes))%nat) keep).
  { apply Forall_forall. intros i Hi. apply greedy_keep_In in Hi.
    rewrite Forall_forall in Hbound. apply Hbound, Hi. }
  fold (take (b :: boxes) keep). rewrite (take_nth _ _ no_box Hin).
  cbn [bind]. fold (take scores keep).
  rewrite Hlen in Hin. rewrite (take_nth _ _ 0 Hin). reflexivity.
Qed.

End ArgsortFacts.

(** ** The stable [argsort] *)

Lemma insert_index_perm scores k l :
  Permutation (insert_index scores k l) (k :: l).
Proof.
  induction l as [| j l IH]; simpl; [reflexivity |].
  destruct (Qltb _ _); [reflexivity |].
  rewrite IH. apply perm_swap.
Qed.

Lemma insert_index_sorted scores k l :
  Forall (fun j => (j < k)%nat) l ->
  StronglySorted (stable_le scores) l ->
  StronglySorted (stable_le scores) (insert_index scores k l).
Proof.
  intros Hlt Hs. induction Hs as [| j l Hs IH Hall]; simpl.
  - repeat constructor.
  - inversion Hlt as [| ? ? Hj Hlt']; subst.
    destruct (Qltb (nth k scores 0) (nth j scores 0)) eqn:E.
    + apply Qltb_lt in E. constructor; [constructor; assumption |].
      constructor; [split; [lra | intros; lra] |].
      eapply Forall_impl; [| exact Hall]. intros x [Hx _].
      split; [lra | intros; lra].
    + apply Qltb_ge in E. constructor; [apply IH, Hlt' |].
      apply Forall_forall. intros x Hx.
      apply (Permutation_in _ (insert_index_perm scores k l)) in Hx.
      destruct Hx as [<- | Hx]; [split; [exact E | intros _; exact Hj] |].
      rewrite Forall_forall in Hall. apply Hall, Hx.
Qed.

Lemma stable_insertion scores n :
  let l := fold_left (fun sorted i => insert_index scores i sorted)
             (seq 0 n) [] in
  Permutation l (seq 0 n) /\ StronglySorted (stable_le scores) l.
Proof.
  induction n as [| n [IHp IHs]]; [split; [reflexivity | constructor] |].
  rewrite seq_S, fold_left_app. simpl. split.
  - rewrite insert_index_perm, IHp. apply Permutation_cons_append.
  - apply insert_index_sorted; [| exact IHs].
    apply Forall_forall. intros j Hj.
    apply (Permutation_in _ IHp), in_seq in Hj. lia.
Qed.

Lemma stable_argsort_stable scores :
  StronglySorted (stable_le scores) (stable_argsort scores).
Proof. apply stable_insertion. Qed.

Lemma StronglySorted_weaken {A} (R S : A -> A -> Prop) (l : list A) :
  (forall a b, R a b -> S a b) -> StronglySorted R l -> StronglySorted S l.
Proof.
  intros HRS. induction 1 as [| a l Hs IH Hall]; constructor; [exact IH |].
  eapply Forall_impl; [| exact Hall]. intros b. apply HRS.
Qed.

Lemma stable_argsort_ok : argsort_spec stable_argsort.
Proof.
  intros scores. split; [apply stable_insertion |].
  eapply StronglySorted_weaken; [| apply stable_argsort_stable].
  intros a b [H _]. exact H.
Qed.

(** Two distinct members of a list stand in one order or the other. *)
Lemma in_two_split {A} (l : list A) (a b : A) :
  In a l -> In b l -> a <> b ->
  (exists l1 l2 l3, l = l1 ++ a :: l2 ++ b :: l3)
  \/ (exists l1 l2 l3, l = l1 ++ b :: l2 ++ a :: l3).
Proof.
  intros Ha Hb Hab. apply in_split in Ha as [l1 [l2 ->]].
  apply in_app_or in Hb as [Hb | [Hb | Hb]].
  - right. apply in_split in Hb as [m1 [m2 ->]].
    exists m1, m2, l2. rewrite <- app_assoc. reflexivity.
  - contradiction.
  - left. apply in_split in Hb as [m1 [m2 ->]].
    exists l1, m1, m2. reflexivity.
Qed.

Lemma StronglySorted_split {A} (R : A -> A -> Prop) (l1 l2 l3 : list A) a b :
  StronglySorted R (l1 ++ a :: l2 ++ b :: l3) -> R a b.
Proof.
  induction l1 as [| x l1 IH]; simpl; intros H; inversion H; subst.
  - match goal with Hall : Forall _ _ |- _ =>
      rewrite Forall_forall in Hall; apply Hall end.
    apply in_or_app. right. left. reflexivity.
  - apply IH. assumption.
Qed.

(** Under the stable [argsort], of two detections with equal scores the one
    later in the input is visited first. *)
Lemma stable_ties_reversed scores i j :
  (i < j)%nat -> (j < length scores)%nat ->
  nth i scores 0 == nth j scores 0 ->
  exists l1 l2 l3,
    processing_order stable_argsort scores = l1 ++ j :: l2 ++ i :: l3.
Proof.
  intros Hij Hj Heq.
  pose proof (stable_insertion scores (length scores)) as [Hp Hs].
  fold (stable_argsort scores) in Hp, Hs.
  assert (Hi_in : In i (stable_argsort scores)).
  { apply (Permutation_in _ (Permutation_sym Hp)), in_seq. lia. }
  assert (Hj_in : In j (stable_argsort scores)).
  { apply (Permutation_in _ (Permutation_sym Hp)), in_seq. lia. }
  destruct (in_two_split _ i j Hi_in Hj_in ltac:(lia))
    as [(l1 & l2 & l3 & E) | (l1 & l2 & l3 & E)].
  - exists (rev l3), (rev l2), (rev l1). unfold processing_order.
    rewrite E. rewrite rev_app_distr. simpl. rewrite rev_app_distr. simpl.
    rewrite <- !app_assoc. reflexivity.
  - rewrite E in Hs. apply StronglySorted_split in Hs as [_ Hs].
    assert (j < i)%nat by (apply Hs; lra). lia.
Qed.

(** ** The score filter *)

Lemma score_filter_columns raw thr :
  score_filter (split_columns raw) thr
  = Ok (split_columns (filter (passes thr) raw)).
Proof.
  unfold score_filter, split_columns. cbn [c_boxes c_scores c_class_ids
    c_class_names]. rewrite map_map.
  change (fun x => Qle_bool thr (pscore x)) with (passes thr).
  rewrite !take_where_map. cbn [bind].
  fold (take (map pclass_name raw) (where_ (map (passes thr) raw))).
  rewrite take_where_map. reflexivity.
Qed.

(** ** Re-labelling *)

Lemma find_class_suffix pre suf fb fs :
  find_class (split_columns (pre ++ suf)) fb fs
    (seq (length pre) (length suf))
  = Ok (option_map (with_class_of fb fs) (find (same_box_score fb fs) suf)).
Proof.
  revert pre. induction suf as [| x suf IH]; intros pre; [reflexivity |].
  assert (Hget : forall {B} (g : Prediction -> B),
             getitem (map g (pre ++ x :: suf)) (length pre) = Ok (g x)).
  { intros B g. unfold getitem.
    rewrite map_app, nth_error_app2 by (rewrite length_map; lia).
    rewrite length_map, Nat.sub_diag. reflexivity. }
  assert (Hnext : find_class (split_columns (pre ++ x :: suf)) fb fs
                    (seq (S (length pre)) (length suf))
                  = Ok (option_map (with_class_of fb fs)
                          (find (same_box_score fb fs) suf))).
  { specialize (IH (pre ++ [x])).
    rewrite <- app_assoc, length_app, Nat.add_1_r in IH. exact IH. }
  cbn [length seq find_class find split_columns c_boxes c_scores c_class_ids
    c_class_names] in *.
  unfold same_box_score at 1.
  rewrite (Hget _ box_of). cbn [bind].
  destruct (array_equal fb (box_of x)); cbn [andb]; [| exact Hnext].
  rewrite (Hget _ pscore). cbn [bind].
  destruct (Qeq_bool fs (pscore x)); [| exact Hnext].
  rewrite (Hget _ pclass_id), (Hget _ pclass_name). reflexivity.
Qed.

Lemma find_class_find filtered fb fs :
  find_class (split_columns filtered) fb fs
    (seq 0 (length (c_boxes (split_columns filtered))))
  = Ok (option_map (with_class_of fb fs)
          (find (same_box_score fb fs) filtered)).
Proof.
  cbn [split_columns c_boxes]. rewrite length_map.
  exact (find_class_suffix [] filtered fb fs).
Qed.

Lemma reassemble_flat_map filtered finals acc :
  reassemble (split_columns filtered) finals acc
  = Ok (acc ++ flat_map (relabelled filtered) finals).
Proof.
  revert acc. induction finals as [| [fb fs] finals IH]; intros acc.
  - simpl. rewrite app_nil_r. reflexivity.
  - cbn [reassemble]. rewrite find_class_find. cbn [bind flat_map].
    unfold relabelled at 1. cbn [fst snd].
    destruct (find (same_box_score fb fs) filtered) as [p |]; cbn [option_map].
    + rewrite IH, <- app_assoc. reflexivity.
    + rewrite IH. reflexivity.
Qed.

Lemma array_equal_refl b : array_equal b b = true.
Proof.
  unfold array_equal.
  rewrite !(proj2 (Qeq_bool_iff _ _) (Qeq_refl _)). reflexivity.
Qed.

Lemma same_box_score_self p : same_box_score (box_of p) (pscore p) p = true.
Proof.
  unfold same_box_score.
  rewrite array_equal_refl, (proj2 (Qeq_bool_iff _ _) (Qeq_refl _)).
  reflexivity.
Qed.

Lemma with_class_of_self p : with_class_of (box_of p) (pscore p) p = p.
Proof. destruct p. reflexivity. Qed.

(** [find] returns the member at the first position that passes. *)
Lemma find_first {A} (f : A -> bool) (l : list A) (i : nat) (d : A) :
  nth_error l i = Some d -> f d = true ->
  exists j m, (j <= i)%nat /\ nth_error l j = Some m /\ f m = true
              /\ find f l = Some m
              /\ (forall k x, (k < j)%nat -> nth_error l k = Some x ->
                              f x = false).
Proof.
  revert i. induction l as [| x l IH]; intros i Hi Hd.
  - destruct i; discriminate.
  - simpl. destruct (f x) eqn:Ex.
    + exists 0%nat, x. repeat split; try reflexivity; try assumption; lia.
    + destruct i as [| i]; [simpl in Hi; congruence |].
      destruct (IH i Hi Hd) as (j & m & Hj & Hm & Hfm & Hfind & Hfirst).
      exists (S j), m. repeat split; try assumption; try lia.
      intros [| k] y Hk Hy; simpl in Hy; [congruence |].
      apply (Hfirst k); [lia | exact Hy].
Qed.

(** ** Ordered pairs of a list *)

Lemma StronglySorted_FOP {A} (R : A -> A -> Prop) (l : list A) :
  StronglySorted R l -> ForallOrdPairs R l.
Proof. induction 1; constructor; assumption. Qed.

Lemma FOP_StronglySorted {A} (R : A -> A -> Prop) (l : list A) :
  ForallOrdPairs R l -> StronglySorted R l.
Proof. induction 1; constructor; assumption. Qed.

Lemma FOP_distinct_pairs {A} (R : A -> A -> Prop) (l : list A) :
  NoDup l -> (forall a b, In a l -> In b l -> a <> b -> R a b) ->
  ForallOrdPairs R l.
Proof.
  induction 1 as [| a l Hnotin Hnd IH]; intros HR; constructor.
  - apply Forall_forall. intros b Hb. apply HR; simpl; auto.
    intros ->. contradiction.
  - apply IH. intros x y Hx Hy. apply HR; simpl; auto.
Qed.

Lemma FOP_nth {A} (R : A -> A -> Prop) (l : list A) (d : A) :
  ForallOrdPairs R l ->
  forall p q, (p < q)%nat -> (q < length l)%nat -> R (nth p l d) (nth q l d).
Proof.
  induction 1 as [| a l Ha _ IH]; intros p q Hpq Hq; simpl in Hq; [lia |].
  destruct q as [| q]; [lia |]. destruct p as [| p]; simpl.
  - rewrite Forall_forall in Ha. apply Ha, nth_In. lia.
  - apply IH; lia.
Qed.

Lemma FOP_and {A} (R S : A -> A -> Prop) (l : list A) :
  ForallOrdPairs R l -> ForallOrdPairs S l ->
  ForallOrdPairs (fun a b => R a b /\ S a b) l.
Proof.
  induction 1 as [| a l Ha _ IH]; intros HS; constructor;
    inversion HS as [| ? ? Hb HS']; subst.
  - rewrite Forall_forall in *. intros x Hx. split; auto.
  - apply IH, HS'.
Qed.

Lemma FOP_weaken {A} (R S : A -> A -> Prop) (l : list A) :
  (forall a b, In a l -> In b l -> R a b -> S a b) ->
  ForallOrdPairs R l -> ForallOrdPairs S l.
Proof.
  intros HRS H. induction H as [| a l Ha _ IH]; constructor.
  - rewrite Forall_forall in *. intros x Hx. apply HRS; simpl; auto.
  - apply IH. intros x y Hx Hy. apply HRS; simpl; auto.
Qed.

Lemma seq_sorted start len : StronglySorted lt (seq start len).
Proof.
  revert start. induction len as [| len IH]; intros start; constructor.
  - apply IH.
  - apply Forall_forall. intros x Hx. apply in_seq in Hx. lia.
Qed.

(** A list in strictly increasing order is determined by its members. *)
Lemma sorted_perm_unique (l1 l2 : list nat) :
  StronglySorted lt l1 -> StronglySorted lt l2 -> Permutation l1 l2 ->
  l1 = l2.
Proof.
  intros H1. revert l2. induction H1 as [| a l1 Hs1 IH Ha]; intros l2 H2 Hp.
  - apply Permutation_nil in Hp. subst. reflexivity.
  - destruct H2 as [| b l2 Hs2 Hb].
    + symmetry in Hp. apply Permutation_nil in Hp. discriminate.
    + assert (a = b).
      { assert (Hin_a : In a (b :: l2))
          by (apply (Permutation_in _ Hp); left; reflexivity).
        assert (Hin_b : In b (a :: l1))
          by (apply (Permutation_in _ (Permutation_sym Hp)); left;
              reflexivity).
        rewrite Forall_forall in Ha, Hb.
        destruct Hin_a as [-> | Hin_a]; [reflexivity |].
        destruct Hin_b as [-> | Hin_b]; [reflexivity |].
        apply Hb in Hin_a. apply Ha in Hin_b. lia. }
      subst b. f_equal. apply IH; [exact Hs2 |].
      eapply Permutation_cons_inv, Hp.
Qed.

Lemma nth_map_in {A B} (f : A -> B) (l : list A) (p : nat) (d : A) (d' : B) :
  (p < length l)%nat -> nth p (map f l) d' = f (nth p l d).
Proof.
  intros Hp. rewrite (nth_indep _ d' (f d)) by (rewrite length_map; exact Hp).
  apply map_nth.
Qed.

Lemma combine_map_same {A B C} (f : A -> B) (g : A -> C) (l : list A) :
  combine (map f l) (map g l) = map (fun x => (f x, g x)) l.
Proof. induction l as [| x l IH]; simpl; [| rewrite IH]; reflexivity. Qed.

Lemma map_nth_positions {A} (l : list A) (d : A) :
  map (fun p => nth p l d) (seq 0 (length l)) = l.
Proof.
  induction l as [| x l IH]; [reflexivity |].
  cbn [length seq map nth]. f_equal.
  rewrite <- seq_shift, map_map. exact IH.
Qed.

Lemma combine_nth_positions {A B} (l : list A) (l' : list B) (d : A) (d' : B) :
  length l = length l' ->
  map (fun p => (nth p l d, nth p l' d')) (seq 0 (length l)) = combine l l'.
Proof.
  intros Hlen.
  rewrite <- (map_nth_positions (combine l l') (d, d')).
  rewrite length_combine, <- Hlen, Nat.min_id.
  apply map_ext. intros p. symmetry. apply combine_nth, Hlen.
Qed.

Lemma below_threshold_sym boxes t a b :
  below_threshold boxes t a b = below_threshold boxes t b a.
Proof.
  unfold below_threshold.
  apply Qltb_compat; [apply iou_val_sym | reflexivity].
Qed.

Section Rerun.

Variable argsort : list Q -> list nat.
Hypothesis argsort_ok : argsort_spec argsort.

Variables (boxes : list Box) (scores : list Q) (t : Q).
Hypothesis pool_nonempty : boxes <> [].
Hypothesis pool_paired : length boxes = length scores.

Let keep := greedy_keep boxes t (processing_order argsort scores).
Let bs := map (fun i => nth i boxes no_box) keep.
Let ss := map (fun i => nth i scores 0) keep.

Lemma keep_nonempty : keep <> [].
Proof.
  unfold keep.
  pose proof (processing_order_perm argsort argsort_ok scores) as Hp.
  destruct (processing_order argsort scores) as [| a l].
  - apply Permutation_length in Hp. simpl in Hp.
    rewrite length_seq, <- pool_paired in Hp.
    destruct boxes; [contradiction | discriminate].
  - simp greedy_keep. discriminate.
Qed.

Lemma kept_pairs_below p q :
  (p < length keep)%nat -> (q < length keep)%nat -> p <> q ->
  below_threshold bs t p q = true.
Proof.
  assert (Hord : forall p q, (p < q)%nat -> (q < length keep)%nat ->
                             below_threshold bs t p q = true).
  { clear p q. intros p q Hpq Hq. unfold below_threshold, bs.
    rewrite (nth_map_in _ keep p 0%nat), (nth_map_in _ keep q 0%nat) by lia.
    apply (FOP_nth _ keep 0%nat (greedy_keep_pairwise boxes t _) p q Hpq Hq). }
  intros Hp Hq Hne. destruct (Nat.lt_ge_cases p q) as [Hlt | Hge].
  - apply Hord; assumption.
  - rewrite below_threshold_sym. apply Hord; lia.
Qed.

Lemma rerun_order_bound :
  Forall (fun p => (p < length keep)%nat) (processing_order argsort ss).
Proof.
  pose proof (processing_order_bound argsort argsort_ok ss) as H.
  unfold ss in H at 1. rewrite length_map in H. exact H.
Qed.

(** On its own output the selection keeps every candidate. *)
Lemma rerun_keeps_all :
  greedy_keep bs t (processing_order argsort ss)
  = processing_order argsort ss.
Proof.
  apply greedy_keep_all, FOP_distinct_pairs.
  - apply processing_order_NoDup, argsort_ok.
  - pose proof rerun_order_bound as Hb. rewrite Forall_forall in Hb.
    intros p q Hp Hq Hne. apply kept_pairs_below; auto.
Qed.

Lemma rerun_returns :
  non_max_suppression argsort bs ss t
  = Ok (BoxesScores
          (map (fun p => nth p bs no_box) (processing_order argsort ss))
          (map (fun p => nth p ss 0) (processing_order argsort ss))).
Proof.
  assert (Hne : bs <> []).
  { unfold bs. pose proof keep_nonempty. destruct keep; [contradiction |].
    discriminate. }
  assert (Hlen : length bs = length ss)
    by (unfold bs, ss; rewrite !length_map; reflexivity).
  destruct (non_max_suppression_greedy argsort argsort_ok bs ss t Hne Hlen)
    as [_ H].
  rewrite H, rerun_keeps_all. reflexivity.
Qed.

Lemma rerun_same_detections :
  Permutation
    (combine (map (fun p => nth p bs no_box) (processing_order argsort ss))
             (map (fun p => nth p ss 0) (processing_order argsort ss)))
    (combine bs ss).
Proof.
  rewrite combine_map_same.
  rewrite <- (combine_nth_positions bs ss no_box 0)
    by (unfold bs, ss; rewrite !length_map; reflexivity).
  apply Permutation_map.
  replace (length bs) with (length ss)
    by (unfold bs, ss; rewrite !length_map; reflexivity).
  apply processing_order_perm, argsort_ok.
Qed.

(** Without ties the kept scores strictly decrease along the output. *)
Lemma kept_scores_decrease :
  no_ties scores ->
  forall p q, (p < q)%nat -> (q < length ss)%nat -> nth q ss 0 < nth p ss 0.
Proof.
  intros Hnt p q Hpq Hq. unfold ss in *. rewrite length_map in Hq.
  rewrite (nth_map_in _ keep p 0%nat), (nth_map_in _ keep q 0%nat) by lia.
  set (R := fun i j : nat => nth j scores 0 < nth i scores 0).
  assert (Hs : ForallOrdPairs R keep).
  { apply StronglySorted_FOP, greedy_keep_sorted, FOP_StronglySorted.
    pose proof (processing_order_bound argsort argsort_ok scores) as Hb.
    rewrite Forall_forall in Hb.
    eapply FOP_weaken;
      [| apply FOP_and;
         [apply StronglySorted_FOP,
            (processing_order_descending argsort argsort_ok scores)
         | apply NoDup_iff_ForallOrdPairs,
             (processing_order_NoDup argsort argsort_ok scores)]].
    intros a b Ha Hb' [Hle Hne]. unfold R. cbv beta in Hle.
    apply Hb in Ha. apply Hb in Hb'.
    destruct (Nat.lt_total a b) as [Hlt | [Heq | Hgt]]; [| contradiction |].
    - pose proof (Hnt a b Hlt Hb'). lra.
    - pose proof (Hnt b a Hgt Ha). lra. }
  apply (FOP_nth R keep 0%nat Hs p q Hpq Hq).
Qed.

Lemma rerun_order_identity :
  no_ties scores -> processing_order argsort ss = seq 0 (length ss).
Proof.
  intros Hnt. apply sorted_perm_unique.
  - apply FOP_StronglySorted.
    pose proof (processing_order_bound argsort argsort_ok ss) as Hb.
    rewrite Forall_forall in Hb.
    eapply FOP_weaken;
      [| apply FOP_and;
         [apply StronglySorted_FOP,
            (processing_order_descending argsort argsort_ok ss)
         | apply NoDup_iff_ForallOrdPairs,
             (processing_order_NoDup argsort argsort_ok ss)]].
    intros a b Ha Hb' [Hle Hne]. cbv beta in Hle.
    apply Hb in Ha. apply Hb in Hb'.
    destruct (Nat.lt_total a b) as [Hlt | [Heq | Hgt]];
      [exact Hlt | contradiction |].
    pose proof (kept_scores_decrease Hnt b a Hgt Ha). lra.
  - apply seq_sorted.
  - apply processing_order_perm, argsort_ok.
Qed.

Lemma rerun_identical :
  no_ties scores ->
  non_max_suppression argsort bs ss t = Ok (BoxesScores bs ss).
Proof.
  intros Hnt. rewrite rerun_returns, (rerun_order_identity Hnt).
  rewrite map_nth_positions.
  replace (length ss) with (length bs)
    by (unfold bs, ss; rewrite !length_map; reflexivity).
  rewrite map_nth_positions. reflexivity.
Qed.

End Rerun.

(** ** The pipeline *)

Lemma pipeline_empty_pool argsort raw st it :
  filter (passes st) raw = [] ->
  pipeline argsort raw st it = Err ValueError.
Proof.
  intros H. unfold pipeline. rewrite score_filter_columns, H. reflexivity.
Qed.

Lemma pipeline_relabelled argsort raw st it :
  argsort_spec argsort ->
  let filtered := filter (passes st) raw in
  filtered <> [] ->
  let keep := greedy_keep (map box_of filtered) it
                (processing_order argsort (map pscore filtered)) in
  nms_keep argsort (map box_of filtered) (map pscore filtered) it = Ok keep
  /\ pipeline argsort raw st it
     = Ok (flat_map (relabelled filtered)
             (map (fun i => (nth i (map box_of filtered) no_box,
                             nth i (map pscore filtered) 0)) keep)).
Proof.
  intros Hok filtered Hne keep.
  assert (Hne' : map box_of filtered <> [])
    by (destruct filtered; [contradiction | discriminate]).
  assert (Hlen : length (map box_of filtered) = length (map pscore filtered))
    by (rewrite !length_map; reflexivity).
  destruct (non_max_suppression_greedy argsort Hok _ _ it Hne' Hlen)
    as [Hkeep Hnms].
  split; [exact Hkeep |].
  unfold pipeline. rewrite score_filter_columns. cbn [bind].
  fold filtered. cbn [split_columns c_boxes c_scores].
  rewrite Hnms. cbn [bind unpack_pair ret fst snd].
  fold keep. rewrite combine_map_same.
  change (mkColumns (map box_of filtered) (map pscore filtered)
            (map pclass_id filtered) (map pclass_name filtered))
    with (split_columns filtered).
  apply reassemble_flat_map.
Qed.

Lemma relabelled_member filtered i d :
  nth_error filtered i = Some d ->
  exists j m,
    (j <= i)%nat /\ nth_error filtered j = Some m
    /\ same_box_score (box_of d) (pscore d) m = true
    /\ (forall k x, (k < j)%nat -> nth_error filtered k = Some x ->
                    same_box_score (box_of d) (pscore d) x = false)
    /\ relabelled filtered
         (nth i (map box_of filtered) no_box, nth i (map pscore filtered) 0)
       = [with_class_of (box_of d) (pscore d) m].
Proof.
  intros Hd.
  rewrite (nth_error_nth _ _ no_box (map_nth_error box_of _ _ Hd)).
  rewrite (nth_error_nth _ _ 0 (map_nth_error pscore _ _ Hd)).
  destruct (find_first (same_box_score (box_of d) (pscore d)) filtered i d Hd
              (same_box_score_self d))
    as (j & m & Hj & Hm & Hfm & Hfind & Hfirst).
  exists j, m. repeat split; try assumption.
  unfold relabelled. cbn [fst snd]. rewrite Hfind. reflexivity.
Qed.
(** ** Order of two members under a filter and under the selection *)

Lemma filter_keeps_order {A} (f : A -> bool) (l1 l2 l3 : list A) (a b : A) :
  f a = true -> f b = true ->
  filter f (l1 ++ a :: l2 ++ b :: l3)
  = filter f l1 ++ a :: filter f l2 ++ b :: filter f l3.
Proof.
  intros Ha Hb. rewrite filter_app. cbn [filter]. rewrite Ha, filter_app.
  cbn [filter]. rewrite Hb. reflexivity.
Qed.

(** A kept index suppresses every later candidate at or above the
    threshold against it. *)
Lemma greedy_keep_suppresses boxes t idxs :
  forall l1 l2 l3 a b,
    idxs = l1 ++ a :: l2 ++ b :: l3 -> NoDup idxs ->
    below_threshold boxes t a b = false ->
    In a (greedy_keep boxes t idxs) -> ~ In b (greedy_keep boxes t idxs).
Proof.
  funelim (greedy_keep boxes t idxs); intros l1 l2 l3 a b E Hnd Hab Ha Hb.
  - destruct l1; discriminate.
  - inversion Hnd as [| ? ? Hnotin Hnd']; subst.
    destruct l1 as [| x l1]; simpl in E; injection E as -> ->.
    + destruct Hb as [-> | Hb].
      * apply Hnotin, in_or_app. right. left. reflexivity.
      * apply greedy_keep_below in Hb. congruence.
    + assert (Ha_rest : In a (l1 ++ a :: l2 ++ b :: l3))
        by (apply in_or_app; right; left; reflexivity).
      assert (Hb_rest : In b (l1 ++ a :: l2 ++ b :: l3)).
      { apply in_or_app. right. right. apply in_or_app. right. left.
        reflexivity. }
      destruct Ha as [-> | Ha]; [contradiction |].
      destruct Hb as [-> | Hb]; [contradiction |].
      pose proof (greedy_keep_below _ _ _ _ _ Ha) as Hfa.
      pose proof (greedy_keep_below _ _ _ _ _ Hb) as Hfb.
      refine (H _ _ _ a b (filter_keeps_order _ l1 l2 l3 a b Hfa Hfb)
                (NoDup_filter _ Hnd') Hab Ha Hb).
Qed.

Lemma argsort_two_descending argsort (s0 s1 : Q) :
  argsort_spec argsort -> s1 < s0 ->
  processing_order argsort [s0; s1] = [0%nat; 1%nat].
Proof.
  intros Hok Hlt. destruct (Hok [s0; s1]) as [Hp Hs].
  unfold processing_order. cbn [length seq] in Hp.
  apply Permutation_sym, Permutation_length_2_inv in Hp as [E | E];
    rewrite E in *; [| reflexivity].
  inversion Hs as [| ? ? _ Hall]; subst.
  inversion Hall as [| ? ? Hle _]; subst. simpl in Hle. lra.
Qed.

(** The run of [main] on the sample data: the four detections printed last. *)
Example main_output :
  main stable_argsort
  = Ok [ mkPrediction 55 55 145 195 (95 # 100) 0 "người"%string;
         mkPrediction 205 105 295 245 (92 # 100) 0 "người"%string;
         mkPrediction 405 205 545 395 (90 # 100) 1 "xe"%string;
         mkPrediction 500 10 550 60 (80 # 100) 0 "người"%string ].
Proof. vm_compute. reflexivity. Qed.

Lemma where_from_sorted start mask :
  StronglySorted lt (where_from start mask)
  /\ Forall (fun p => (start <= p)%nat) (where_from start mask).
Proof.
  revert start. induction mask as [| b m IH]; intros start.
  - split; constructor.
  - destruct (IH (S start)) as [Hs Hge]. simpl. destruct b.
    + split.
      * constructor; [exact Hs |].
        eapply Forall_impl; [| exact Hge]. intros p Hp. simpl in Hp. lia.
      * constructor; [lia |].
        eapply Forall_impl; [| exact Hge]. intros p Hp. simpl in Hp. lia.
    + split; [exact Hs |].
      eapply Forall_impl; [| exact Hge]. intros p Hp. simpl in Hp. lia.
Qed.

Lemma mapM_getitem_Forall2 {A} (arr : list A) (indices : list nat) (r : list A) :
  mapM (getitem arr) indices = Ok r ->
  Forall2 (fun i x => nth_error arr i = Some x) indices r.
Proof.
  revert r. induction indices as [| i l IH]; simpl; intros r H.
  - injection H as <-. constructor.
  - unfold getitem at 1 in H.
    destruct (nth_error arr i) as [x |] eqn:E; simpl in H; [| discriminate].
    destruct (mapM (getitem arr) l) as [xs |]; simpl in H; [| discriminate].
    injection H as <-. constructor; [exact E | apply IH; reflexivity].
Qed.


(** ** Binary64 arithmetic up to the sign of zero *)

Section Binary64.
Import SpecFloat.

Lemma same_number_refl a : same_number a a.
Proof. left. reflexivity. Qed.

Lemma same_number_sym a b : same_number a b -> same_number b a.
Proof.
  intros [-> | (s & s' & -> & ->)]; [left; reflexivity | right; eauto].
Qed.

Lemma same_number_zero s s' : same_number (S754_zero s) (S754_zero s').
Proof. right. eauto. Qed.

Lemma SFcompare_antisym a b :
  SFcompare b a = option_map CompOpp (SFcompare a b).
Proof.
  destruct a as [sa | sa | | sa ma ea], b as [sb | sb | | sb mb eb];
    try (simpl; reflexivity);
    try (destruct sa; simpl; reflexivity);
    try (destruct sb; simpl; reflexivity);
    try (destruct sa, sb; simpl; reflexivity).
  simpl.
  change (Pos.compare_cont Eq ma mb) with (ma ?= mb)%positive.
  change (Pos.compare_cont Eq mb ma) with (mb ?= ma)%positive.
  rewrite (Pos.compare_antisym ma mb), (Z.compare_antisym ea eb).
  destruct sa, sb; simpl; try reflexivity;
    destruct (ea ?= eb)%Z; simpl; try reflexivity;
    rewrite ?CompOpp_involutive; reflexivity.
Qed.

Lemma SFcompare_eq a b : SFcompare a b = Some Eq -> same_number a b.
Proof.
  destruct a as [sa | sa | | sa ma ea], b as [sb | sb | | sb mb eb];
    simpl; try discriminate;
    try (destruct sa; discriminate); try (destruct sb; discriminate).
  - intros _. apply same_number_zero.
  - destruct sa, sb; try discriminate; intros _; left; reflexivity.
  - change (Pos.compare_cont Eq ma mb) with (ma ?= mb)%positive.
    destruct sa, sb; try discriminate;
      destruct (ea ?= eb)%Z eqn:E; try discriminate;
      apply Z.compare_eq in E; subst eb;
      destruct (ma ?= mb)%positive eqn:Em; try discriminate;
      apply Pos.compare_eq in Em; subst mb; intros _; left; reflexivity.
Qed.

(** Comparisons do not see the sign of a zero. *)
Lemma SFcompare_same a a' b b' :
  same_number a a' -> same_number b b' -> SFcompare a b = SFcompare a' b'.
Proof.
  intros [-> | (s & s' & -> & ->)] [-> | (r & r' & -> & ->)];
    try reflexivity; destruct a'; reflexivity.
Qed.

Lemma ltb_same a a' b b' :
  same_number a a' -> same_number b b' -> F64.ltb a b = F64.ltb a' b'.
Proof.
  intros Ha Hb. unfold F64.ltb, SFltb.
  rewrite (SFcompare_same a a' b b' Ha Hb). reflexivity.
Qed.

Lemma eqb_same a a' b b' :
  same_number a a' -> same_number b b' -> F64.eqb a b = F64.eqb a' b'.
Proof.
  intros Ha Hb. unfold F64.eqb, SFeqb.
  rewrite (SFcompare_same a a' b b' Ha Hb). reflexivity.
Qed.

Lemma max_sym a b :
  is_nan a = false -> is_nan b = false ->
  same_number (F64.max a b) (F64.max b a).
Proof.
  intros Ha Hb. unfold F64.max, F64.ltb, SFltb.
  rewrite (SFcompare_antisym a b).
  destruct (SFcompare a b) as [[| |] |] eqn:E; simpl.
  - apply SFcompare_eq, E.
  - apply same_number_refl.
  - apply same_number_refl.
  - destruct a, b; simpl in *; try discriminate;
      try (destruct s; discriminate); try (destruct s0; discriminate).
Qed.

Lemma min_sym a b :
  is_nan a = false -> is_nan b = false ->
  same_number (F64.min a b) (F64.min b a).
Proof.
  intros Ha Hb. unfold F64.min, F64.ltb, SFltb.
  rewrite (SFcompare_antisym a b).
  destruct (SFcompare a b) as [[| |] |] eqn:E; simpl.
  - apply SFcompare_eq, E.
  - apply same_number_refl.
  - apply same_number_refl.
  - destruct a, b; simpl in *; try discriminate;
      try (destruct s; discriminate); try (destruct s0; discriminate).
Qed.

Lemma max_same a a' b b' :
  same_number a a' -> same_number b b' ->
  same_number (F64.max a b) (F64.max a' b').
Proof.
  intros Ha Hb. unfold F64.max. rewrite (ltb_same a a' b b' Ha Hb).
  destruct (F64.ltb a' b'); assumption.
Qed.

Lemma add_comm a b : F64.add a b = F64.add b a.
Proof.
  unfold F64.add.
  destruct a as [sa | sa | | sa ma ea], b as [sb | sb | | sb mb eb];
    simpl; try reflexivity; try (destruct sa, sb; reflexivity).
  rewrite (Z.min_comm eb ea), Z.add_comm. reflexivity.
Qed.

Lemma add_same a a' b b' :
  same_number a a' -> same_number b b' ->
  same_number (F64.add a b) (F64.add a' b').
Proof.
  intros [-> | (s & s' & -> & ->)] [-> | (r & r' & -> & ->)].
  - apply same_number_refl.
  - destruct a'; simpl; try apply same_number_refl.
    destruct s, r, r'; apply same_number_zero.
  - destruct b'; simpl; try apply same_number_refl.
    destruct s, s', s0; apply same_number_zero.
  - destruct s, s', r, r'; apply same_number_zero.
Qed.

Lemma sub_same a a' b b' :
  same_number a a' -> same_number b b' ->
  same_number (F64.sub a b) (F64.sub a' b').
Proof.
  intros [-> | (s & s' & -> & ->)] [-> | (r & r' & -> & ->)].
  - apply same_number_refl.
  - destruct a'; simpl; try apply same_number_refl.
    destruct s, r, r'; apply same_number_zero.
  - destruct b'; simpl; try apply same_number_refl.
    destruct s, s', s0; apply same_number_zero.
  - destruct s, s', r, r'; apply same_number_zero.
Qed.

Lemma mul_same a a' b b' :
  same_number a a' -> same_number b b' ->
  same_number (F64.mul a b) (F64.mul a' b').
Proof.
  intros [-> | (s & s' & -> & ->)] [-> | (r & r' & -> & ->)].
  - apply same_number_refl.
  - destruct a'; simpl; try apply same_number_refl; apply same_number_zero.
  - destruct b'; simpl; try apply same_number_refl; apply same_number_zero.
  - apply same_number_zero.
Qed.

Lemma div_same a a' b b' :
  same_number a a' -> same_number b b' -> F64.eqb b F64.zero = false ->
  same_number (F64.div a b) (F64.div a' b').
Proof.
  intros [-> | (s & s' & -> & ->)] [-> | (r & r' & -> & ->)] Hb;
    try discriminate.
  - apply same_number_refl.
  - destruct b'; simpl; try apply same_number_refl; apply same_number_zero.
Qed.

Lemma iou64_ok A B : iou64 A B = Ok (iou64_val A B).
Proof.
  unfold iou64, iou64_val, F64.truediv.
  fold (area64 A). fold (area64 B).
  change (F64.mul _ _) with (intersection64 A B).
  change (F64.sub (F64.add (area64 A) (area64 B)) (intersection64 A B))
    with (union64 A B).
  destruct (F64.eqb (union64 A B) F64.zero); reflexivity.
Qed.

Lemma intersection64_sym A B :
  no_nan A -> no_nan B ->
  same_number (intersection64 A B) (intersection64 B A).
Proof.
  intros (Ha1 & Ha2 & Ha3 & Ha4) (Hb1 & Hb2 & Hb3 & Hb4).
  unfold intersection64.
  apply mul_same; apply max_same; try apply same_number_refl;
    apply sub_same; (apply min_sym || apply max_sym); assumption.
Qed.

Lemma union64_sym A B :
  no_nan A -> no_nan B -> same_number (union64 A B) (union64 B A).
Proof.
  intros HA HB. unfold union64. rewrite (add_comm (area64 A) (area64 B)).
  apply sub_same; [apply same_number_refl | apply intersection64_sym];
    assumption.
Qed.

Lemma iou64_val_sym A B :
  no_nan A -> no_nan B -> same_number (iou64_val A B) (iou64_val B A).
Proof.
  intros HA HB. unfold iou64_val.
  pose proof (union64_sym A B HA HB) as Hu.
  pose proof (intersection64_sym A B HA HB) as Hi.
  rewrite (eqb_same _ _ F64.zero F64.zero Hu (same_number_refl _)).
  destruct (F64.eqb (union64 B A) F64.zero) eqn:E;
    [apply same_number_refl |].
  apply div_same; try assumption.
  rewrite (eqb_same _ _ F64.zero F64.zero Hu (same_number_refl _)). exact E.
Qed.

Lemma SFcompare_refl a : is_nan a = false -> SFcompare a a = Some Eq.
Proof.
  destruct a as [s | s | | s m e]; simpl; try discriminate; intros _;
    try reflexivity; try (destruct s; reflexivity).
  change (Pos.compare_cont Eq m m) with (m ?= m)%positive.
  rewrite Z.compare_refl, Pos.compare_refl. destruct s; reflexivity.
Qed.

(** Python's [==] on two values that are the same number is true unless
    they are NaN. *)
Lemma eqb_same_number a b :
  same_number a b -> F64.eqb a b = negb (is_nan a).
Proof.
  intros [-> | (s & s' & -> & ->)]; [| reflexivity].
  unfold F64.eqb, SFeqb. destruct (is_nan b) eqn:E.
  - destruct b; try discriminate. reflexivity.
  - rewrite (SFcompare_refl b E). reflexivity.
Qed.

End Binary64.

(** * The claims *)

(** C1 (behaviour of the code). When the score filter leaves no detection,
    [non_max_suppression] is called on an empty pool and returns the bare
    empty list; unpacking it into boxes and scores raises [ValueError], and
    that error is the outcome of the pipeline. *)
Theorem pipeline_empty_pool_raises argsort raw st it :
  filter (passes st) raw = [] ->
  (forall scores, non_max_suppression argsort [] scores it = Ok EmptyList)
  /\ unpack_pair EmptyList = Err ValueError
  /\ pipeline argsort raw st it = Err ValueError.
Proof.
  intros H. repeat split. apply pipeline_empty_pool, H.
Qed.

Lemma pipeline_empty_pool_raises_witness :
  pipeline stable_argsort [] (1 # 2) (1 # 2) = Err ValueError
  /\ pipeline stable_argsort [mkPrediction 10 10 30 30 (30 # 100) 0 "người"]
       (1 # 2) (1 # 2) = Err ValueError.
Proof.
  split.
  - apply (pipeline_empty_pool_raises stable_argsort [] (1 # 2) (1 # 2)).
    reflexivity.
  - apply (pipeline_empty_pool_raises stable_argsort
             [mkPrediction 10 10 30 30 (30 # 100) 0 "người"] (1 # 2) (1 # 2)).
    reflexivity.
Defined.

(** C2 (counterexample). Two overlapping boxes with the same score: the
    second one of the input is visited first and is the one kept, where a
    stable descending sort would visit and keep the first. *)
Lemma tied_pair_keeps_later_example :
  processing_order stable_argsort [9 # 10; 9 # 10] = [1%nat; 0%nat]
  /\ non_max_suppression stable_argsort
       [mkBox 10 10 50 50; mkBox 12 12 52 52] [9 # 10; 9 # 10] (1 # 2)
     = Ok (BoxesScores [mkBox 12 12 52 52] [9 # 10])
  /\ non_max_suppression stable_argsort
       [mkBox 10 10 50 50; mkBox 12 12 52 52] [9 # 10; 9 # 10] (1 # 2)
     <> Ok (BoxesScores [mkBox 10 10 50 50] [9 # 10]).
Proof.
  repeat split; try reflexivity. vm_compute. discriminate.
Qed.

(** C2 (amended). The processing order is the reverse of the ascending
    [argsort]; with an [argsort] that keeps equal scores in input order, two
    detections with equal scores are visited in reverse input order, the
    later one first.  So when they overlap at or above the threshold, the
    earlier one is not kept whenever the later one is, and in a pool of just
    the two the later one is the one kept. *)
Theorem stable_ties_visit_later_first boxes scores t i j :
  length boxes = length scores ->
  (i < j)%nat -> (j < length scores)%nat ->
  nth i scores 0 == nth j scores 0 ->
  (exists l1 l2 l3,
      processing_order stable_argsort scores = l1 ++ j :: l2 ++ i :: l3)
  /\ (t <= iou_val (nth j boxes no_box) (nth i boxes no_box) ->
      exists keep,
        nms_keep stable_argsort boxes scores t = Ok keep
        /\ (In j keep -> ~ In i keep)
        /\ (length scores = 2%nat -> keep = [j])).
Proof.
  intros Hlen Hij Hj Heq.
  destruct (stable_ties_reversed scores i j Hij Hj Heq) as (l1 & l2 & l3 & E).
  split; [exists l1, l2, l3; exact E |].
  intros Hiou.
  assert (Hne : boxes <> []) by (destruct boxes; simpl in *; [lia | discriminate]).
  destruct (non_max_suppression_greedy stable_argsort stable_argsort_ok
              boxes scores t Hne Hlen) as [Hkeep _].
  assert (Hbt : below_threshold boxes t j i = false)
    by (apply Qltb_ge; exact Hiou).
  eexists. split; [exact Hkeep |]. split.
  - apply (greedy_keep_suppresses boxes t _ l1 l2 l3 j i E); [| exact Hbt].
    apply processing_order_NoDup, stable_argsort_ok.
  - intros H2. rewrite E.
    pose proof (processing_order_perm stable_argsort stable_argsort_ok scores)
      as Hp.
    apply Permutation_length in Hp. rewrite E, length_seq, H2 in Hp.
    destruct l1; [| destruct l1; simpl in Hp; rewrite ?length_app in Hp; simpl in Hp; lia].
    destruct l2; [| simpl in Hp; rewrite ?length_app in Hp; simpl in Hp; lia].
    destruct l3; [| simpl in Hp; lia].
    simpl. simp greedy_keep. cbn [filter]. rewrite Hbt. simp greedy_keep.
    reflexivity.
Qed.

Lemma stable_ties_visit_later_first_witness :
  exists keep,
    nms_keep stable_argsort [mkBox 10 10 50 50; mkBox 12 12 52 52]
      [9 # 10; 9 # 10] (1 # 2) = Ok keep
    /\ keep = [1%nat].
Proof.
  destruct (stable_ties_visit_later_first
              [mkBox 10 10 50 50; mkBox 12 12 52 52] [9 # 10; 9 # 10]
              (1 # 2) 0 1) as [_ H].
  - reflexivity.
  - lia.
  - simpl. lia.
  - reflexivity.
  - destruct H as (keep & Hkeep & _ & Hone).
    + vm_compute. discriminate.
    + exists keep. split; [exact Hkeep | apply Hone; reflexivity].
Defined.

(** C3 (counterexample). Two filtered detections with the same box and the
    same score but different classes, both kept by the suppression: both
    final detections carry the class of the first one, so the one that
    originates from the second detection has lost its class. *)
Lemma relabel_duplicate_example :
  let raw := [mkPrediction 10 10 10 10 (9 # 10) 0 "người";
              mkPrediction 10 10 10 10 (9 # 10) 1 "xe"] in
  nms_keep stable_argsort (map box_of raw) (map pscore raw) (1 # 2)
  = Ok [1%nat; 0%nat]
  /\ pipeline stable_argsort raw (1 # 2) (1 # 2)
     = Ok [mkPrediction 10 10 10 10 (9 # 10) 0 "người";
           mkPrediction 10 10 10 10 (9 # 10) 0 "người"]
  /\ pclass_id (nth 0 [mkPrediction 10 10 10 10 (9 # 10) 0 "người";
                       mkPrediction 10 10 10 10 (9 # 10) 0 "người"]
                  no_prediction)
     <> pclass_id (nth 1 raw no_prediction).
Proof. repeat split. discriminate. Qed.

(** C3 (amended). When the score filter leaves detections, every final
    detection carries the box and the score of the filtered detection it
    originates from (the one at its kept index), and the class_id and
    class_label of the first filtered detection whose box and score equal
    those; it is the originating detection itself whenever no earlier
    filtered detection has the same box and score. *)
Theorem pipeline_class_of_first_match argsort raw st it :
  argsort_spec argsort ->
  filter (passes st) raw <> [] ->
  exists keep finals,
    nms_keep argsort (map box_of (filter (passes st) raw))
      (map pscore (filter (passes st) raw)) it = Ok keep
    /\ pipeline argsort raw st it = Ok finals
    /\ Forall2 (fun i p =>
         exists d j m,
           nth_error (filter (passes st) raw) i = Some d
           /\ (j <= i)%nat
           /\ nth_error (filter (passes st) raw) j = Some m
           /\ same_box_score (box_of d) (pscore d) m = true
           /\ (forall k x, (k < j)%nat ->
                 nth_error (filter (passes st) raw) k = Some x ->
                 same_box_score (box_of d) (pscore d) x = false)
           /\ box_of p = box_of d /\ pscore p = pscore d
           /\ pclass_id p = pclass_id m /\ pclass_name p = pclass_name m
           /\ ((forall k x, (k < i)%nat ->
                  nth_error (filter (passes st) raw) k = Some x ->
                  same_box_score (box_of d) (pscore d) x = false) ->
               p = d))
         keep finals.
Proof.
  intros Hok Hne.
  destruct (pipeline_relabelled argsort raw st it Hok Hne) as [Hkeep Hpipe].
  set (filtered := filter (passes st) raw) in *.
  set (keep := greedy_keep _ _ _) in *.
  exists keep, (flat_map (relabelled filtered)
                  (map (fun i => (nth i (map box_of filtered) no_box,
                                  nth i (map pscore filtered) 0)) keep)).
  split; [exact Hkeep |]. split; [exact Hpipe |].
  assert (Hbound : Forall (fun i => (i < length filtered)%nat) keep).
  { apply Forall_forall. intros i Hi. apply greedy_keep_In in Hi.
    pose proof (processing_order_bound argsort Hok (map pscore filtered)) as Hb.
    rewrite Forall_forall in Hb. apply Hb in Hi.
    rewrite length_map in Hi. exact Hi. }
  clear Hkeep Hpipe. induction Hbound as [| i keep' Hi _ IH]; [constructor |].
  destruct (nth_error filtered i) as [d |] eqn:Hd;
    [| apply nth_error_None in Hd; lia].
  destruct (relabelled_member filtered i d Hd)
    as (j & m & Hj & Hm & Hfm & Hfirst & Hrel).
  cbn [map flat_map]. rewrite Hrel. cbn [app].
  constructor; [| exact IH].
  exists d, j, m. repeat split; try assumption.
  intros Hnone.
  destruct (Nat.eq_dec j i) as [-> | Hji].
  - rewrite Hd in Hm. injection Hm as <-. apply with_class_of_self.
  - rewrite (Hnone j m) in Hfm by (assumption || lia). discriminate.
Qed.

Lemma pipeline_class_of_first_match_witness :
  exists finals,
    pipeline stable_argsort raw_predictions (1 # 2) (1 # 2) = Ok finals
    /\ length finals = 4%nat.
Proof.
  destruct (pipeline_class_of_first_match stable_argsort raw_predictions
              (1 # 2) (1 # 2) stable_argsort_ok)
    as (keep & finals & _ & Hpipe & Hall).
  - vm_compute. discriminate.
  - exists finals. split; [exact Hpipe |].
    assert (E : Ok finals = main stable_argsort) by (symmetry; exact Hpipe).
    vm_compute in E. injection E as ->. reflexivity.
Defined.

(** C4. After an anchor is kept, the candidates of the next round are the
    remaining candidates whose IoU with the anchor is strictly less than
    [iou_threshold], in their order: a candidate survives if and only if its
    IoU is strictly below the threshold, and one whose IoU equals the
    threshold is suppressed. *)
Theorem suppress_round_strict_threshold boxes t best rest keep :
  (best < length boxes)%nat ->
  Forall (fun idx => (idx < length boxes)%nat) rest ->
  exists next,
    suppress_round boxes t best rest = Ok next
    /\ nms_loop boxes t (best :: rest) keep
       = nms_loop boxes t next (keep ++ [best])
    /\ next = filter (below_threshold boxes t best) rest
    /\ (forall idx v,
          iou (nth best boxes no_box) (nth idx boxes no_box) = Ok v ->
          (In idx next <-> In idx rest /\ v < t))
    /\ (forall idx v,
          iou (nth best boxes no_box) (nth idx boxes no_box) = Ok v ->
          v == t -> ~ In idx next).
Proof.
  intros Hb Hr. exists (filter (below_threshold boxes t best) rest).
  pose proof (suppress_round_filter boxes t best rest Hb Hr) as Hround.
  split; [exact Hround |]. split; [rewrite nms_loop_cons, Hround; reflexivity |].
  split; [reflexivity |]. split.
  - intros idx v Hv. rewrite iou_ok in Hv. injection Hv as <-.
    rewrite filter_In. unfold below_threshold. rewrite Qltb_lt. reflexivity.
  - intros idx v Hv Heq Hin. rewrite iou_ok in Hv. injection Hv as <-.
    apply filter_In in Hin as [_ Hin]. apply Qltb_lt in Hin. lra.
Qed.

Lemma suppress_round_strict_threshold_witness :
  exists next,
    suppress_round
      [mkBox 0 0 2 2; mkBox 0 0 2 1; mkBox 0 0 1 1; mkBox 5 5 6 6]
      (1 # 2) 0 [1%nat; 2%nat; 3%nat] = Ok next
    /\ next = [2%nat; 3%nat].
Proof.
  destruct (suppress_round_strict_threshold
              [mkBox 0 0 2 2; mkBox 0 0 2 1; mkBox 0 0 1 1; mkBox 5 5 6 6]
              (1 # 2) 0 [1%nat; 2%nat; 3%nat] [])
    as (next & Hround & _ & Hnext & _).
  - simpl. lia.
  - repeat constructor; simpl; lia.
  - exists next. split; [exact Hround |]. rewrite Hnext. reflexivity.
Defined.

(** C5. The score filter returns the detections whose score is greater than
    or equal to [scoreThreshold], all four columns alike: a detection is in
    the output exactly when it is in the input with such a score (one with
    score equal to the threshold is kept), and the output lists them at
    increasing input positions, that is in their input order. *)
Theorem score_filter_inclusive_ordered raw thr :
  score_filter (split_columns raw) thr
  = Ok (split_columns (filter (passes thr) raw))
  /\ (forall p, In p (filter (passes thr) raw)
                <-> In p raw /\ thr <= pscore p)
  /\ (forall p, In p raw -> pscore p == thr ->
                In p (filter (passes thr) raw))
  /\ (exists positions,
         StronglySorted lt positions
         /\ Forall2 (fun i p => nth_error raw i = Some p) positions
              (filter (passes thr) raw)).
Proof.
  split; [apply score_filter_columns |]. split; [| split].
  - intros p. rewrite filter_In. unfold passes. rewrite Qle_bool_iff.
    reflexivity.
  - intros p Hin Heq. apply filter_In. split; [exact Hin |].
    unfold passes. apply Qle_bool_iff. lra.
  - exists (where_ (map (passes thr) raw)). split.
    + apply where_from_sorted.
    + apply mapM_getitem_Forall2. apply (take_where (passes thr) raw).
Qed.

Lemma score_filter_inclusive_ordered_witness :
  score_filter
    (split_columns [mkPrediction 0 0 1 1 (1 # 2) 0 "người";
                    mkPrediction 0 0 2 2 (3 # 10) 1 "xe";
                    mkPrediction 0 0 3 3 (9 # 10) 1 "xe"]) (1 # 2)
  = Ok (split_columns [mkPrediction 0 0 1 1 (1 # 2) 0 "người";
                       mkPrediction 0 0 3 3 (9 # 10) 1 "xe"])
  /\ In (mkPrediction 0 0 1 1 (1 # 2) 0 "người")
       (filter (passes (1 # 2))
          [mkPrediction 0 0 1 1 (1 # 2) 0 "người";
           mkPrediction 0 0 2 2 (3 # 10) 1 "xe";
           mkPrediction 0 0 3 3 (9 # 10) 1 "xe"]).
Proof.
  destruct (score_filter_inclusive_ordered
              [mkPrediction 0 0 1 1 (1 # 2) 0 "người";
               mkPrediction 0 0 2 2 (3 # 10) 1 "xe";
               mkPrediction 0 0 3 3 (9 # 10) 1 "xe"] (1 # 2))
    as (Hcols & _ & Hedge & _).
  split; [exact Hcols |].
  apply Hedge; [left; reflexivity | reflexivity].
Defined.

(** C6. Whenever the union area [areaA + areaB - intersectionArea] of two
    boxes is exactly 0, [iou] returns 0; and on every pair of boxes [iou]
    returns a value, so the guarded division [inter_area / union_area] is
    never evaluated with a zero divisor (which would raise
    [ZeroDivisionError]) and, when it is evaluated, it yields the quotient. *)
Theorem iou_zero_union_guarded (A B : Box) :
  (union_area A B == 0 -> iou A B = Ok 0)
  /\ (exists q, iou A B = Ok q)
  /\ (~ union_area A B == 0 ->
      truediv (intersection_area A B) (union_area A B) = iou A B).
Proof.
  rewrite iou_ok. unfold iou_val, truediv. repeat split.
  - intros H. apply Qeq_bool_iff in H. rewrite H. reflexivity.
  - eexists. reflexivity.
  - intros H. destruct (Qeq_bool (union_area A B) 0) eqn:E.
    + apply Qeq_bool_iff in E. contradiction.
    + reflexivity.
Qed.

Lemma iou_zero_union_guarded_witness :
  union_area (mkBox 3 3 3 3) (mkBox 7 7 7 9) == 0
  /\ iou (mkBox 3 3 3 3) (mkBox 7 7 7 9) = Ok 0.
Proof.
  split; [reflexivity |].
  apply (proj1 (iou_zero_union_guarded (mkBox 3 3 3 3) (mkBox 7 7 7 9))).
  reflexivity.
Defined.

(** C7 (counterexample). Two disjoint boxes with the same score: the first
    run returns them in the order second, first; run again on that output,
    the function returns them in the order first, second. *)
Lemma resuppress_reorders_ties_example :
  non_max_suppression stable_argsort
    [mkBox 0 0 10 10; mkBox 20 20 30 30] [9 # 10; 9 # 10] (1 # 2)
  = Ok (BoxesScores [mkBox 20 20 30 30; mkBox 0 0 10 10] [9 # 10; 9 # 10])
  /\ resuppress stable_argsort
       (BoxesScores [mkBox 20 20 30 30; mkBox 0 0 10 10] [9 # 10; 9 # 10])
       (1 # 2)
     = Ok (BoxesScores [mkBox 0 0 10 10; mkBox 20 20 30 30] [9 # 10; 9 # 10])
  /\ resuppress stable_argsort
       (BoxesScores [mkBox 20 20 30 30; mkBox 0 0 10 10] [9 # 10; 9 # 10])
       (1 # 2)
     <> Ok (BoxesScores [mkBox 20 20 30 30; mkBox 0 0 10 10]
              [9 # 10; 9 # 10]).
Proof.
  repeat split; try reflexivity. vm_compute. discriminate.
Qed.

(** C7 (amended). For every pool with one score per box and every threshold,
    [non_max_suppression] returns, and run again on what it returned with
    the same threshold it returns the same detections, each box with its
    score: none is dropped and none is added.  When no two scores of the
    pool are equal, the second result is the first one, in the same
    order. *)
Theorem resuppress_keeps_all argsort boxes scores t :
  argsort_spec argsort ->
  length boxes = length scores ->
  exists r r',
    non_max_suppression argsort boxes scores t = Ok r
    /\ resuppress argsort r t = Ok r'
    /\ Permutation (detections r') (detections r)
    /\ (no_ties scores -> r' = r).
Proof.
  intros Hok Hlen. destruct boxes as [| b boxes].
  - exists EmptyList, EmptyList. repeat split. reflexivity.
  - assert (Hne : b :: boxes <> []) by discriminate.
    destruct (non_max_suppression_greedy argsort Hok (b :: boxes) scores t
                Hne Hlen) as [_ Hnms].
    eexists. eexists. split; [exact Hnms |].
    split; [apply (rerun_returns argsort Hok (b :: boxes) scores t Hne Hlen) |].
    split; [apply (rerun_same_detections argsort Hok) |].
    intros Hnt.
    pose proof (rerun_identical argsort Hok (b :: boxes) scores t Hne Hlen Hnt)
      as Hid.
    rewrite (rerun_returns argsort Hok (b :: boxes) scores t Hne Hlen) in Hid.
    congruence.
Qed.

Lemma resuppress_keeps_all_witness :
  exists r,
    non_max_suppression stable_argsort
      [mkBox 55 55 145 195; mkBox 60 60 160 210; mkBox 500 10 550 60]
      [95 # 100; 88 # 100; 80 # 100] (1 # 2) = Ok r
    /\ resuppress stable_argsort r (1 # 2) = Ok r.
Proof.
  destruct (resuppress_keeps_all stable_argsort
              [mkBox 55 55 145 195; mkBox 60 60 160 210; mkBox 500 10 550 60]
              [95 # 100; 88 # 100; 80 # 100] (1 # 2) stable_argsort_ok
              eq_refl) as (r & r' & Hr & Hr' & _ & Hsame).
  exists r. split; [exact Hr |]. rewrite <- Hsame at 2; [exact Hr' |].
  intros i j Hij Hj Heq.
  destruct j as [| [| [| j]]]; simpl in Hj; try lia;
    destruct i as [| [| i]]; try lia; vm_compute in Heq; discriminate.
Defined.

(** C8 (counterexample). On the binary64 box (0, 0, 1e200, 1e200), whose
    area overflows, [iou] returns NaN, and NaN is not equal to itself:
    [iou(A, A) == iou(A, A)] is false. *)
Lemma iou64_nan_not_equal_example :
  exists v v',
    iou64 Sample64.big Sample64.big = Ok v
    /\ iou64 Sample64.big Sample64.big = Ok v'
    /\ is_nan v = true
    /\ F64.eqb v v' = false.
Proof.
  exists SpecFloat.S754_nan, SpecFloat.S754_nan.
  repeat split; vm_compute; reflexivity.
Qed.

(** C8 (amended). On all boxes [A] and [B] of binary64 coordinates none of
    which is NaN, [iou(A, B)] and [iou(B, A)] both return, and they return
    the same number (at most the sign of a zero differs) or both NaN; so
    [iou(A, B) == iou(B, A)] is true exactly when the returned value is not
    NaN. *)
Theorem iou64_symmetric_unless_nan (A B : Box64) :
  no_nan A -> no_nan B ->
  exists v v',
    iou64 A B = Ok v /\ iou64 B A = Ok v'
    /\ same_number v v'
    /\ F64.eqb v v' = negb (is_nan v).
Proof.
  intros HA HB. exists (iou64_val A B), (iou64_val B A).
  split; [apply iou64_ok |]. split; [apply iou64_ok |].
  pose proof (iou64_val_sym A B HA HB) as H.
  split; [exact H | apply eqb_same_number, H].
Qed.

Lemma iou64_symmetric_unless_nan_witness :
  exists v v',
    iou64 Sample64.boxA Sample64.boxB = Ok v
    /\ iou64 Sample64.boxB Sample64.boxA = Ok v'
    /\ F64.eqb v v' = true.
Proof.
  destruct (iou64_symmetric_unless_nan Sample64.boxA Sample64.boxB)
    as (v & v' & Hv & Hv' & _ & Heq).
  - repeat split; vm_compute; reflexivity.
  - repeat split; vm_compute; reflexivity.
  - exists v, v'. split; [exact Hv |]. split; [exact Hv' |].
    rewrite Heq.
    assert (E : Ok v = iou64 Sample64.boxA Sample64.boxB)
      by (symmetry; exact Hv).
    vm_compute in E. injection E as ->. reflexivity.
Defined.

(** C9. For the pool A = (55,55,145,195) with score 0.95 and
    B = (60,60,160,210) with score 0.88 and [iou_threshold] 0.5, the IoU
    of A and B exceeds 0.5, and [non_max_suppression] returns only A,
    with its score. *)
Theorem nms_example_keeps_only_A argsort :
  argsort_spec argsort ->
  (exists v, iou (mkBox 55 55 145 195) (mkBox 60 60 160 210) = Ok v
             /\ 1 # 2 < v)
  /\ non_max_suppression argsort
       [mkBox 55 55 145 195; mkBox 60 60 160 210] [95 # 100; 88 # 100]
       (1 # 2)
     = Ok (BoxesScores [mkBox 55 55 145 195] [95 # 100]).
Proof.
  intros Hok. split.
  - eexists. split; [vm_compute; reflexivity | reflexivity].
  - destruct (non_max_suppression_greedy argsort Hok
                [mkBox 55 55 145 195; mkBox 60 60 160 210]
                [95 # 100; 88 # 100] (1 # 2)) as [_ H];
      [discriminate | reflexivity |].
    rewrite H, (argsort_two_descending argsort _ _ Hok) by reflexivity.
    reflexivity.
Qed.

Lemma nms_example_keeps_only_A_witness :
  non_max_suppression stable_argsort
    [mkBox 55 55 145 195; mkBox 60 60 160 210] [95 # 100; 88 # 100] (1 # 2)
  = Ok (BoxesScores [mkBox 55 55 145 195] [95 # 100]).
Proof.
  apply (nms_example_keeps_only_A stable_argsort). exact stable_argsort_ok.
Defined.

(** C10. For every non-empty pool with one score per box,
    [non_max_suppression] returns two sequences of the same length, one
    entry per kept index: the box and the score at a position are the
    input's box and score at the kept index of that position, and no index
    is kept twice. *)
Theorem nms_returns_paired_kept_indices argsort boxes scores t :
  argsort_spec argsort ->
  boxes <> [] -> length boxes = length scores ->
  exists keep bs ss,
    nms_keep argsort boxes scores t = Ok keep
    /\ non_max_suppression argsort boxes scores t = Ok (BoxesScores bs ss)
    /\ length bs = length ss
    /\ length bs = length keep
    /\ NoDup keep
    /\ (forall k i, nth_error keep k = Some i ->
          exists b s,
            nth_error boxes i = Some b /\ nth_error scores i = Some s
            /\ nth_error bs k = Some b /\ nth_error ss k = Some s).
Proof.
  intros Hok Hne Hlen.
  destruct (non_max_suppression_greedy argsort Hok boxes scores t Hne Hlen)
    as [Hkeep Hnms].
  set (keep := greedy_keep _ _ _) in *.
  exists keep, (map (fun i => nth i boxes no_box) keep),
    (map (fun i => nth i scores 0) keep).
  split; [exact Hkeep |]. split; [exact Hnms |].
  rewrite !length_map. split; [reflexivity |]. split; [reflexivity |]. split.
  - apply greedy_keep_NoDup, processing_order_NoDup, Hok.
  - intros k i Hk.
    assert (Hi : (i < length scores)%nat).
    { apply nth_error_In, greedy_keep_In in Hk.
      pose proof (processing_order_bound argsort Hok scores) as Hb.
      rewrite Forall_forall in Hb. apply Hb, Hk. }
    exists (nth i boxes no_box), (nth i scores 0). repeat split.
    + apply nth_error_nth'. lia.
    + apply nth_error_nth'. exact Hi.
    + apply (map_nth_error (fun i => nth i boxes no_box) _ _ Hk).
    + apply (map_nth_error (fun i => nth i scores 0) _ _ Hk).
Qed.

Lemma nms_returns_paired_kept_indices_witness :
  exists keep bs ss,
    nms_keep stable_argsort (map box_of raw_predictions)
      (map pscore raw_predictions) (1 # 2) = Ok keep
    /\ non_max_suppression stable_argsort (map box_of raw_predictions)
         (map pscore raw_predictions) (1 # 2) = Ok (BoxesScores bs ss)
    /\ length bs = length ss /\ NoDup keep.
Proof.
  destruct (nms_returns_paired_kept_indices stable_argsort
              (map box_of raw_predictions) (map pscore raw_predictions)
              (1 # 2) stable_argsort_ok)
    as (keep & bs & ss & Hkeep & Hnms & Hlen & _ & Hnd & _).
  - discriminate.
  - reflexivity.
  - exists keep, bs, ss. repeat split; assumption.
Defined.

(** * Further properties *)

(** ** More on the geometry *)

Lemma pymax_cases (a b : Q) :
  (a < b /\ Py.max a b = b) \/ (b <= a /\ Py.max a b = a).
Proof.
  unfold Py.max. destruct (Qltb a b) eqn:E.
  - left. split; [apply Qltb_lt, E | reflexivity].
  - right. split; [apply Qltb_ge, E | reflexivity].
Qed.

Lemma pymin_cases (a b : Q) :
  (b < a /\ Py.min a b = b) \/ (a <= b /\ Py.min a b = a).
Proof.
  unfold Py.min. destruct (Qltb b a) eqn:E.
  - left. split; [apply Qltb_lt, E | reflexivity].
  - right. split; [apply Qltb_ge, E | reflexivity].
Qed.

Lemma intersection_area_overlap A B :
  intersection_area A B
  = overlap (bx1 A) (bx2 A) (bx1 B) (bx2 B)
    * overlap (by1 A) (by2 A) (by1 B) (by2 B).
Proof. reflexivity. Qed.

Lemma overlap_translate d lo1 hi1 lo2 hi2 :
  overlap (lo1 + d) (hi1 + d) (lo2 + d) (hi2 + d)
  == overlap lo1 hi1 lo2 hi2.
Proof.
  unfold overlap.
  destruct (pymin_cases hi1 hi2) as [[? ->] | [? ->]];
    destruct (pymax_cases lo1 lo2) as [[? ->] | [? ->]];
    destruct (pymin_cases (hi1 + d) (hi2 + d)) as [[? ->] | [? ->]];
    destruct (pymax_cases (lo1 + d) (lo2 + d)) as [[? ->] | [? ->]];
    repeat match goal with
    | |- context [Py.max 0 ?w] =>
        destruct (pymax_cases 0 w) as [[? ->] | [? ->]]
    end; lra.
Qed.

(** [iou_val] only depends on the two areas it divides. *)
Lemma iou_val_compat A B A' B' :
  intersection_area A B == intersection_area A' B' ->
  union_area A B == union_area A' B' ->
  iou_val A B == iou_val A' B'.
Proof.
  intros Hi Hu. unfold iou_val.
  rewrite (Qeq_bool_compat _ _ 0 0 Hu (Qeq_refl 0)).
  destruct (Qeq_bool (union_area A' B') 0); [reflexivity |].
  rewrite Hi, Hu. reflexivity.
Qed.


(** ** Further properties of [iou] *)

(** X5. Moving both boxes by the same offset does not change their IoU. *)
Theorem iou_translation_invariant dx dy A B :
  exists v v', iou A B = Ok v
               /\ iou (translate dx dy A) (translate dx dy B) = Ok v'
               /\ v' == v.
Proof.
  exists (iou_val A B), (iou_val (translate dx dy A) (translate dx dy B)).
  split; [apply iou_ok |]. split; [apply iou_ok |].
  assert (Hi : intersection_area (translate dx dy A) (translate dx dy B)
               == intersection_area A B).
  { rewrite !intersection_area_overlap. cbn [translate bx1 bx2 by1 by2].
    rewrite !overlap_translate. reflexivity. }
  apply iou_val_compat; [exact Hi |].
  unfold union_area. rewrite Hi. unfold box_area.
  cbn [translate bx1 bx2 by1 by2]. ring.
Qed.

(** ** More on the greedy selection *)

Lemma mapM_raises {A B} (f : A -> result B) (l : list A) (e : exn) :
  Forall (fun x => f x = Err e \/ exists y, f x = Ok y) l ->
  Exists (fun x => f x = Err e) l ->
  mapM f l = Err e.
Proof.
  induction 1 as [| x l Hx _ IH]; intros Hex; [inversion Hex |].
  simpl. destruct Hx as [Hx | [y Hx]]; rewrite Hx; [reflexivity |].
  simpl. inversion Hex as [? ? H | ? ? H]; subst; [congruence |].
  rewrite (IH H). reflexivity.
Qed.

Lemma getitem_out_of_range {A} (l : list A) (i : nat) :
  (length l <= i)%nat -> getitem l i = Err IndexError.
Proof.
  intros H. unfold getitem.
  rewrite (proj2 (nth_error_None l i) H). reflexivity.
Qed.

Lemma getitem_cases {A} (l : list A) (i : nat) :
  ((length l <= i)%nat /\ getitem l i = Err IndexError)
  \/ ((i < length l)%nat /\ exists a, getitem l i = Ok a).
Proof.
  destruct (Nat.le_gt_cases (length l) i) as [H | H].
  - left. split; [exact H | apply getitem_out_of_range, H].
  - right. split; [exact H |]. unfold getitem.
    destruct (nth_error l i) eqn:E; [eauto |].
    apply nth_error_None in E. lia.
Qed.

(** A round raises [IndexError] as soon as the kept index or one of the
    candidates is not an index of [boxes]. *)
Lemma suppress_round_raises boxes t best rest :
  rest <> [] ->
  Exists (fun i => (length boxes <= i)%nat) (best :: rest) ->
  suppress_round boxes t best rest = Err IndexError.
Proof.
  intros Hne Hex. unfold suppress_round.
  rewrite (mapM_raises _ rest IndexError); [reflexivity | |].
  - apply Forall_forall. intros idx _.
    destruct (getitem_cases boxes best) as [[_ ->] | [_ [b1 ->]]];
      [left; reflexivity |].
    destruct (getitem_cases boxes idx) as [[_ ->] | [_ [b2 ->]]];
      [left; reflexivity |].
    right. simpl. rewrite iou_ok. eauto.
  - inversion Hex as [? ? H | ? ? H]; subst.
    + destruct rest as [| idx rest]; [contradiction |].
      apply Exists_cons_hd. rewrite (getitem_out_of_range boxes best H).
      reflexivity.
    + apply Exists_exists in H as [idx [Hin Hidx]].
      apply Exists_exists. exists idx. split; [exact Hin |].
      destruct (getitem_cases boxes best) as [[_ ->] | [_ [b1 ->]]];
        [reflexivity |].
      simpl. rewrite (getitem_out_of_range boxes idx Hidx). reflexivity.
Qed.

(** The pair returned when no index of [scores] is out of range of
    [boxes]. *)
Lemma non_max_suppression_greedy_le argsort boxes scores t :
  argsort_spec argsort ->
  boxes <> [] -> (length scores <= length boxes)%nat ->
  nms_keep argsort boxes scores t
  = Ok (greedy_keep boxes t (processing_order argsort scores))
  /\ non_max_suppression argsort boxes scores t
     = Ok (BoxesScores
             (map (fun i => nth i boxes no_box)
                (greedy_keep boxes t (processing_order argsort scores)))
             (map (fun i => nth i scores 0)
                (greedy_keep boxes t (processing_order argsort scores)))).
Proof.
  intros Hok Hne Hlen.
  set (keep := greedy_keep boxes t (processing_order argsort scores)).
  pose proof (processing_order_bound argsort Hok scores) as Hs.
  assert (Hbound : Forall (fun i => (i < length boxes)%nat)
                     (processing_order argsort scores)).
  { eapply Forall_impl; [| exact Hs]. intros i Hi. simpl in Hi. lia. }
  assert (Hkeep : nms_keep argsort boxes scores t = Ok keep).
  { unfold nms_keep. rewrite nms_loop_greedy by exact Hbound. reflexivity. }
  split; [exact Hkeep |].
  unfold non_max_suppression.
  destruct boxes as [| b boxes]; [contradiction |].
  cbn [length Nat.eqb]. rewrite Hkeep. cbn [bind].
  assert (Hin : Forall (fun i => (i < length scores)%nat) keep).
  { apply Forall_forall. intros i Hi. apply greedy_keep_In in Hi.
    rewrite Forall_forall in Hs. apply Hs, Hi. }
  assert (Hin' : Forall (fun i => (i < length (b :: boxes))%nat) keep).
  { eapply Forall_impl; [| exact Hin]. intros i Hi. simpl in Hi. lia. }
  fold (take (b :: boxes) keep). rewrite (take_nth _ _ no_box Hin').
  cbn [bind]. fold (take scores keep).
  rewrite (take_nth _ _ 0 Hin). reflexivity.
Qed.

(** Every candidate is kept or is at or above the threshold against a kept
    index that stands before it. *)
Lemma greedy_keep_covers (R : nat -> nat -> Prop) boxes t idxs :
  StronglySorted R idxs ->
  forall x, In x idxs ->
    In x (greedy_keep boxes t idxs)
    \/ exists a, In a (greedy_keep boxes t idxs) /\ R a x
                 /\ below_threshold boxes t a x = false.
Proof.
  funelim (greedy_keep boxes t idxs); intros Hs x Hx; [contradiction |].
  inversion Hs as [| ? ? Hs' Hall]; subst.
  destruct Hx as [-> | Hx]; [left; left; reflexivity |].
  destruct (below_threshold boxes t best x) eqn:E.
  - destruct (H R (StronglySorted_filter R _ rest Hs') x) as [Hk | (a & Ha & HR & Hb)].
    + apply filter_In. split; assumption.
    + left. right. exact Hk.
    + right. exists a. split; [right; exact Ha | split; assumption].
  - right. exists best. split; [left; reflexivity |]. split; [| exact E].
    rewrite Forall_forall in Hall. apply Hall, Hx.
Qed.

(** A candidate below the threshold against every other candidate is
    kept. *)
Lemma greedy_keep_isolated boxes t idxs x :
  In x idxs ->
  (forall a, In a idxs -> a <> x -> below_threshold boxes t a x = true) ->
  In x (greedy_keep boxes t idxs).
Proof.
  funelim (greedy_keep boxes t idxs); intros Hx Hiso; [contradiction |].
  destruct (Nat.eq_dec best x) as [-> | Hne]; [left; reflexivity |].
  destruct Hx as [-> | Hx]; [left; reflexivity |]. right.
  apply H.
  - apply filter_In. split; [exact Hx |]. apply Hiso; [left; reflexivity | exact Hne].
  - intros a Ha Hax. apply filter_In in Ha as [Ha _].
    apply Hiso; [right; exact Ha | exact Hax].
Qed.

(** The selection only looks at the boxes of its candidates. *)
Lemma greedy_keep_ext boxes boxes' t idxs :
  (forall a b, In a idxs -> In b idxs ->
               below_threshold boxes t a b = below_threshold boxes' t a b) ->
  greedy_keep boxes t idxs = greedy_keep boxes' t idxs.
Proof.
  funelim (greedy_keep boxes t idxs); intros Hext; simp greedy_keep;
    [reflexivity |].
  assert (Hf : filter (below_threshold boxes t best) rest
               = filter (below_threshold boxes' t best) rest).
  { apply filter_ext_in. intros x Hx.
    apply Hext; [left; reflexivity | right; exact Hx]. }
  f_equal. rewrite <- Hf. apply H.
  intros a b Ha Hb. apply filter_In in Ha as [Ha _].
  apply filter_In in Hb as [Hb _]. apply Hext; right; assumption.
Qed.

Lemma StronglySorted_map {A B} (R : B -> B -> Prop) (f : A -> B) (l : list A) :
  StronglySorted (fun a b => R (f a) (f b)) l -> StronglySorted R (map f l).
Proof.
  induction 1 as [| a l Hs IH Hall]; simpl; constructor; [exact IH |].
  apply Forall_map. exact Hall.
Qed.

Lemma nth_error_lt {A} (l : list A) (i : nat) (x : A) :
  nth_error l i = Some x -> (i < length l)%nat.
Proof. intros H. apply nth_error_Some. congruence. Qed.

(** ** Further properties of [non_max_suppression] *)

Lemma processing_order_head argsort scores :
  argsort_spec argsort -> scores <> [] ->
  exists top rest,
    processing_order argsort scores = top :: rest
    /\ (top < length scores)%nat
    /\ forall i, (i < length scores)%nat ->
                 nth i scores 0 <= nth top scores 0.
Proof.
  intros Hok Hne.
  pose proof (processing_order_perm argsort Hok scores) as Hp.
  pose proof (processing_order_descending argsort Hok scores) as Hs.
  destruct (processing_order argsort scores) as [| top rest].
  - apply Permutation_length in Hp. rewrite length_seq in Hp.
    destruct scores; [contradiction | discriminate].
  - exists top, rest. split; [reflexivity |]. split.
    + assert (Hin : In top (seq 0 (length scores)))
        by (apply (Permutation_in _ Hp); left; reflexivity).
      apply in_seq in Hin. lia.
    + intros i Hi.
      assert (Hin : In i (top :: rest)).
      { apply (Permutation_in _ (Permutation_sym Hp)), in_seq. lia. }
      destruct Hin as [<- | Hin]; [lra |].
      inversion Hs as [| ? ? _ Hall]; subst.
      rewrite Forall_forall in Hall. apply Hall, Hin.
Qed.

(** X7. On a non-empty pool the returned scores never increase along the
    output, and the first one is at least as high as every score of the
    pool. *)
Theorem nms_scores_descending argsort boxes scores t :
  argsort_spec argsort ->
  boxes <> [] -> length boxes = length scores ->
  exists bs ss top,
    non_max_suppression argsort boxes scores t = Ok (BoxesScores bs ss)
    /\ StronglySorted (fun a b => b <= a) ss
    /\ nth_error ss 0 = Some top
    /\ forall s, In s scores -> s <= top.
Proof.
  intros Hok Hne Hlen.
  destruct (non_max_suppression_greedy argsort Hok boxes scores t Hne Hlen)
    as [_ Hnms].
  assert (Hsne : scores <> [])
    by (destruct scores; [destruct boxes; [contradiction | discriminate]
                         | discriminate]).
  destruct (processing_order_head argsort scores Hok Hsne)
    as (top & rest & Horder & Htop & Hmax).
  eexists. eexists. exists (nth top scores 0).
  split; [exact Hnms |]. split; [| split].
  - apply StronglySorted_map.
    apply greedy_keep_sorted, processing_order_descending, Hok.
  - rewrite Horder. simp greedy_keep. reflexivity.
  - intros s Hs. apply (In_nth _ _ 0) in Hs as (i & Hi & <-).
    apply Hmax, Hi.
Qed.

Lemma nms_scores_descending_witness :
  exists bs ss top,
    non_max_suppression stable_argsort (map box_of raw_predictions)
      (map pscore raw_predictions) (1 # 2) = Ok (BoxesScores bs ss)
    /\ nth_error ss 0 = Some top
    /\ 70 # 100 <= top.
Proof.
  destruct (nms_scores_descending stable_argsort
              (map box_of raw_predictions) (map pscore raw_predictions)
              (1 # 2) stable_argsort_ok)
    as (bs & ss & top & Hnms & _ & Htop & Hmax).
  - discriminate.
  - reflexivity.
  - exists bs, ss, top. split; [exact Hnms |]. split; [exact Htop |].
    apply Hmax. simpl. tauto.
Defined.

(** X8. Any two detections returned for a non-empty pool, at different
    positions of the output, have an IoU strictly below [iou_threshold],
    whichever of the two is taken first. *)
Theorem nms_kept_pairwise_below argsort boxes scores t :
  argsort_spec argsort ->
  boxes <> [] -> length boxes = length scores ->
  exists bs ss,
    non_max_suppression argsort boxes scores t = Ok (BoxesScores bs ss)
    /\ forall p q b1 b2,
         p <> q -> nth_error bs p = Some b1 -> nth_error bs q = Some b2 ->
         exists v, iou b1 b2 = Ok v /\ v < t.
Proof.
  intros Hok Hne Hlen.
  destruct (non_max_suppression_greedy argsort Hok boxes scores t Hne Hlen)
    as [_ Hnms].
  eexists. eexists. split; [exact Hnms |].
  intros p q b1 b2 Hpq H1 H2.
  assert (Hp : (p < length (greedy_keep boxes t
                              (processing_order argsort scores)))%nat).
  { apply nth_error_lt in H1. rewrite length_map in H1. exact H1. }
  assert (Hq : (q < length (greedy_keep boxes t
                              (processing_order argsort scores)))%nat).
  { apply nth_error_lt in H2. rewrite length_map in H2. exact H2. }
  pose proof (kept_pairs_below argsort boxes scores t Hlen p q Hp Hq Hpq)
    as Hbelow.
  unfold below_threshold in Hbelow.
  rewrite (nth_error_nth _ _ no_box H1), (nth_error_nth _ _ no_box H2)
    in Hbelow.
  exists (iou_val b1 b2). split; [apply iou_ok | apply Qltb_lt, Hbelow].
Qed.

Lemma nms_kept_pairwise_below_witness :
  exists bs ss,
    non_max_suppression stable_argsort (map box_of raw_predictions)
      (map pscore raw_predictions) (1 # 2) = Ok (BoxesScores bs ss)
    /\ (2 <= length bs)%nat.
Proof.
  destruct (nms_kept_pairwise_below stable_argsort
              (map box_of raw_predictions) (map pscore raw_predictions)
              (1 # 2) stable_argsort_ok)
    as (bs & ss & Hnms & _).
  - discriminate.
  - reflexivity.
  - exists bs, ss. split; [exact Hnms |].
    assert (E : Ok (BoxesScores bs ss)
                = non_max_suppression stable_argsort
                    (map box_of raw_predictions) (map pscore raw_predictions)
                    (1 # 2)) by (symmetry; exact Hnms).
    vm_compute in E. injection E as -> _. simpl. lia.
Defined.

(** X9. Every detection of a non-empty pool is kept, or the comparison of
    line 57 failed for it against a kept detection whose score is not lower:
    the IoU the code computed for that kept box and it was not below
    [iou_threshold].  Nothing is dropped without such a cause. *)
Theorem nms_suppressed_has_cause argsort boxes scores t :
  argsort_spec argsort ->
  boxes <> [] -> length boxes = length scores ->
  exists keep,
    nms_keep argsort boxes scores t = Ok keep
    /\ forall i bi, nth_error boxes i = Some bi ->
         In i keep
         \/ exists k bk v,
              In k keep /\ nth_error boxes k = Some bk
              /\ nth i scores 0 <= nth k scores 0
              /\ iou bk bi = Ok v /\ ~ v < t.
Proof.
  intros Hok Hne Hlen.
  destruct (non_max_suppression_greedy argsort Hok boxes scores t Hne Hlen)
    as [Hkeep _].
  eexists. split; [exact Hkeep |]. intros i bi Hi.
  assert (Hlt : (i < length scores)%nat)
    by (rewrite <- Hlen; apply nth_error_lt in Hi; exact Hi).
  assert (Hin : In i (processing_order argsort scores)).
  { apply (Permutation_in _ (Permutation_sym
                               (processing_order_perm argsort Hok scores))).
    apply in_seq. lia. }
  destruct (greedy_keep_covers _ boxes t _
              (processing_order_descending argsort Hok scores) i Hin)
    as [Hk | (k & Hk & Hle & Hb)]; [left; exact Hk | right].
  assert (Hkb : (k < length boxes)%nat).
  { apply greedy_keep_In in Hk.
    pose proof (processing_order_bound argsort Hok scores) as Hbd.
    rewrite Forall_forall in Hbd. apply Hbd in Hk. lia. }
  exists k, (nth k boxes no_box), (iou_val (nth k boxes no_box) bi).
  split; [exact Hk |]. split; [apply nth_error_nth', Hkb |].
  split; [exact Hle |]. split; [apply iou_ok |].
  unfold below_threshold in Hb. rewrite (nth_error_nth _ _ no_box Hi) in Hb.
  intros Hbelow. apply Qltb_lt in Hbelow. congruence.
Qed.

Lemma nms_suppressed_has_cause_witness :
  exists keep,
    nms_keep stable_argsort [mkBox 55 55 145 195; mkBox 60 60 160 210]
      [95 # 100; 88 # 100] (1 # 2) = Ok keep
    /\ (In 1%nat keep
        \/ exists k bk v,
             In k keep
             /\ nth_error [mkBox 55 55 145 195; mkBox 60 60 160 210] k
                = Some bk
             /\ nth 1 [95 # 100; 88 # 100] 0 <= nth k [95 # 100; 88 # 100] 0
             /\ iou bk (mkBox 60 60 160 210) = Ok v /\ ~ v < 1 # 2).
Proof.
  destruct (nms_suppressed_has_cause stable_argsort
              [mkBox 55 55 145 195; mkBox 60 60 160 210]
              [95 # 100; 88 # 100] (1 # 2) stable_argsort_ok)
    as (keep & Hkeep & Hall).
  - discriminate.
  - reflexivity.
  - exists keep. split; [exact Hkeep |].
    apply (Hall 1%nat (mkBox 60 60 160 210)). reflexivity.
Defined.

(** X10. For a non-empty pool the output holds at least one detection and
    at most as many as the pool. *)
Theorem nms_output_size argsort boxes scores t :
  argsort_spec argsort ->
  boxes <> [] -> length boxes = length scores ->
  exists bs ss,
    non_max_suppression argsort boxes scores t = Ok (BoxesScores bs ss)
    /\ (1 <= length bs)%nat /\ (length bs <= length boxes)%nat
    /\ length ss = length bs.
Proof.
  intros Hok Hne Hlen.
  destruct (non_max_suppression_greedy argsort Hok boxes scores t Hne Hlen)
    as [_ Hnms].
  eexists. eexists. split; [exact Hnms |]. rewrite !length_map.
  pose proof (keep_nonempty argsort Hok boxes scores t Hne Hlen) as Hk.
  split; [destruct (greedy_keep _ _ _); [contradiction | simpl; lia] |].
  split; [| reflexivity].
  assert (H : (length (greedy_keep boxes t (processing_order argsort scores))
               <= length (seq 0 (length scores)))%nat).
  { apply NoDup_incl_length.
    - apply greedy_keep_NoDup, processing_order_NoDup, Hok.
    - intros i Hi. apply greedy_keep_In in Hi.
      apply (Permutation_in _ (processing_order_perm argsort Hok scores)), Hi. }
  rewrite length_seq in H. lia.
Qed.

Lemma nms_output_size_witness :
  exists bs ss,
    non_max_suppression stable_argsort (map box_of raw_predictions)
      (map pscore raw_predictions) (1 # 2) = Ok (BoxesScores bs ss)
    /\ (1 <= length bs)%nat /\ (length bs <= 8)%nat.
Proof.
  destruct (nms_output_size stable_argsort
              (map box_of raw_predictions) (map pscore raw_predictions)
              (1 # 2) stable_argsort_ok)
    as (bs & ss & Hnms & H1 & H2 & _).
  - discriminate.
  - reflexivity.
  - exists bs, ss. split; [exact Hnms |]. split; [exact H1 | exact H2].
Defined.

(** X11. With a non-empty [boxes] and more scores than boxes,
    [non_max_suppression] raises [IndexError]: the first round already reads
    a box at an index that only [scores] has. *)
Theorem nms_more_scores_than_boxes_raises argsort boxes scores t :
  argsort_spec argsort ->
  boxes <> [] -> (length boxes < length scores)%nat ->
  non_max_suppression argsort boxes scores t = Err IndexError.
Proof.
  intros Hok Hne Hlen.
  pose proof (processing_order_perm argsort Hok scores) as Hp.
  assert (Hlast : In (length scores - 1)%nat (processing_order argsort scores)).
  { apply (Permutation_in _ (Permutation_sym Hp)), in_seq. lia. }
  assert (Hlen2 : (2 <= length (processing_order argsort scores))%nat).
  { rewrite (Permutation_length Hp), length_seq.
    destruct boxes; [contradiction | simpl in *; lia]. }
  unfold non_max_suppression, nms_keep.
  destruct boxes as [| b boxes]; [contradiction |]. cbn [length Nat.eqb].
  destruct (processing_order argsort scores) as [| best [| idx rest]];
    try (simpl in Hlen2; lia).
  rewrite nms_loop_cons, suppress_round_raises; [reflexivity | discriminate |].
  apply Exists_exists. exists (length scores - 1)%nat.
  split; [exact Hlast | simpl in *; lia].
Qed.

Lemma nms_more_scores_than_boxes_raises_witness :
  non_max_suppression stable_argsort [mkBox 0 0 1 1]
    [9 # 10; 8 # 10] (1 # 2) = Err IndexError.
Proof.
  apply (nms_more_scores_than_boxes_raises stable_argsort [mkBox 0 0 1 1]
           [9 # 10; 8 # 10] (1 # 2) stable_argsort_ok).
  - discriminate.
  - simpl. lia.
Defined.

(** X12. With at least one score and no more scores than boxes,
    [non_max_suppression] returns a pair, and the boxes beyond the last
    score play no part: the result is the one for the boxes cut to the
    number of scores. *)
Theorem nms_fewer_scores_ignores_boxes argsort boxes scores t :
  argsort_spec argsort ->
  scores <> [] -> (length scores <= length boxes)%nat ->
  (exists bs ss,
      non_max_suppression argsort boxes scores t = Ok (BoxesScores bs ss))
  /\ non_max_suppression argsort boxes scores t
     = non_max_suppression argsort (firstn (length scores) boxes) scores t.
Proof.
  intros Hok Hsne Hlen.
  assert (Hne : boxes <> []).
  { destruct boxes; [| discriminate].
    destruct scores; [contradiction | simpl in Hlen; lia]. }
  assert (Hne' : firstn (length scores) boxes <> []).
  { destruct scores; [contradiction |].
    destruct boxes; [contradiction | discriminate]. }
  assert (Hlen' : length (firstn (length scores) boxes) = length scores)
    by (rewrite length_firstn; lia).
  destruct (non_max_suppression_greedy_le argsort boxes scores t Hok Hne Hlen)
    as [_ H1].
  destruct (non_max_suppression_greedy argsort Hok _ scores t Hne' Hlen')
    as [_ H2].
  split; [eexists; eexists; exact H1 |].
  rewrite H1, H2.
  pose proof (processing_order_bound argsort Hok scores) as Hbd.
  rewrite Forall_forall in Hbd.
  assert (Hnth : forall i, (i < length scores)%nat ->
            nth i (firstn (length scores) boxes) no_box = nth i boxes no_box).
  { intros i Hi. rewrite <- (firstn_skipn (length scores) boxes) at 2.
    rewrite app_nth1 by (rewrite Hlen'; exact Hi). reflexivity. }
  assert (Hkeep : greedy_keep boxes t (processing_order argsort scores)
                  = greedy_keep (firstn (length scores) boxes) t
                      (processing_order argsort scores)).
  { apply greedy_keep_ext. intros a b Ha Hb. unfold below_threshold.
    rewrite !Hnth by (apply Hbd; assumption). reflexivity. }
  rewrite <- Hkeep. do 2 f_equal.
  apply map_ext_in. intros i Hi. symmetry. apply Hnth, Hbd.
  eapply greedy_keep_In, Hi.
Qed.

Lemma nms_fewer_scores_ignores_boxes_witness :
  non_max_suppression stable_argsort
    [mkBox 0 0 2 2; mkBox 0 0 2 1; mkBox 0 0 2 2] [8 # 10; 9 # 10] (1 # 2)
  = non_max_suppression stable_argsort
      [mkBox 0 0 2 2; mkBox 0 0 2 1] [8 # 10; 9 # 10] (1 # 2).
Proof.
  apply (nms_fewer_scores_ignores_boxes stable_argsort
           [mkBox 0 0 2 2; mkBox 0 0 2 1; mkBox 0 0 2 2] [8 # 10; 9 # 10]
           (1 # 2) stable_argsort_ok).
  - discriminate.
  - simpl. lia.
Defined.

(** X13. When, for every two different detections of a non-empty pool, the
    IoU the code computes (in either order) is below [iou_threshold],
    nothing is suppressed: the kept indices are the whole processing order
    and the output holds every detection of the pool. *)
Theorem nms_all_below_keeps_all argsort boxes scores t :
  argsort_spec argsort ->
  boxes <> [] -> length boxes = length scores ->
  (forall i j bi bj v,
      i <> j -> nth_error boxes i = Some bi -> nth_error boxes j = Some bj ->
      iou bi bj = Ok v -> v < t) ->
  nms_keep argsort boxes scores t = Ok (processing_order argsort scores)
  /\ exists bs ss,
       non_max_suppression argsort boxes scores t = Ok (BoxesScores bs ss)
       /\ Permutation (combine bs ss) (combine boxes scores).
Proof.
  intros Hok Hne Hlen Hpairs.
  destruct (non_max_suppression_greedy argsort Hok boxes scores t Hne Hlen)
    as [Hkeep Hnms].
  pose proof (processing_order_bound argsort Hok scores) as Hbd.
  rewrite Forall_forall in Hbd.
  assert (Hall : greedy_keep boxes t (processing_order argsort scores)
                 = processing_order argsort scores).
  { apply greedy_keep_all, FOP_distinct_pairs.
    - apply processing_order_NoDup, Hok.
    - intros a b Ha Hb Hab. unfold below_threshold. apply Qltb_lt.
      apply Hbd in Ha. apply Hbd in Hb. rewrite <- Hlen in Ha, Hb.
      apply (Hpairs a b (nth a boxes no_box) (nth b boxes no_box));
        [exact Hab | apply nth_error_nth', Ha | apply nth_error_nth', Hb
        | apply iou_ok]. }
  rewrite Hall in Hkeep, Hnms. split; [exact Hkeep |].
  eexists. eexists. split; [exact Hnms |].
  rewrite combine_map_same.
  rewrite <- (combine_nth_positions boxes scores no_box 0 Hlen).
  apply Permutation_map. rewrite Hlen.
  apply processing_order_perm, Hok.
Qed.

Lemma nms_all_below_keeps_all_witness :
  nms_keep stable_argsort [mkBox 0 0 10 10; mkBox 20 20 30 30]
    [8 # 10; 9 # 10] (1 # 2)
  = Ok (processing_order stable_argsort [8 # 10; 9 # 10]).
Proof.
  apply (nms_all_below_keeps_all stable_argsort
           [mkBox 0 0 10 10; mkBox 20 20 30 30] [8 # 10; 9 # 10] (1 # 2)
           stable_argsort_ok).
  - discriminate.
  - reflexivity.
  - intros i j bi bj v Hij Hi Hj Hv.
    destruct i as [| [| i]], j as [| [| j]]; simpl in Hi, Hj;
      try congruence; try (destruct i; discriminate);
      try (destruct j; discriminate);
      injection Hi as <-; injection Hj as <-;
      vm_compute in Hv; injection Hv as <-; reflexivity.
Defined.

(** X14. When, for every two different detections of a non-empty pool, the
    IoU the code computes is not below [iou_threshold], every other
    detection is suppressed in the first round: the output is the one
    detection visited first, a detection of the pool whose score is at
    least every score of the pool. *)
Theorem nms_none_below_keeps_one argsort boxes scores t :
  argsort_spec argsort ->
  boxes <> [] -> length boxes = length scores ->
  (forall i j bi bj v,
      i <> j -> nth_error boxes i = Some bi -> nth_error boxes j = Some bj ->
      iou bi bj = Ok v -> ~ v < t) ->
  exists b s,
    non_max_suppression argsort boxes scores t = Ok (BoxesScores [b] [s])
    /\ In (b, s) (combine boxes scores)
    /\ forall s', In s' scores -> s' <= s.
Proof.
  intros Hok Hne Hlen Hpairs.
  destruct (non_max_suppression_greedy argsort Hok boxes scores t Hne Hlen)
    as [_ Hnms].
  assert (Hsne : scores <> [])
    by (destruct scores; [destruct boxes; [contradiction | discriminate]
                         | discriminate]).
  destruct (processing_order_head argsort scores Hok Hsne)
    as (top & rest & Horder & Htop & Hmax).
  pose proof (processing_order_bound argsort Hok scores) as Hbd.
  pose proof (processing_order_NoDup argsort Hok scores) as Hnd.
  rewrite Horder in Hbd, Hnd.
  assert (Hkeep : greedy_keep boxes t (processing_order argsort scores)
                  = [top]).
  { rewrite Horder. simp greedy_keep.
    assert (Hnone : filter (below_threshold boxes t top) rest = []).
    { inversion Hnd as [| ? ? Hnotin _]; subst.
      inversion Hbd as [| ? ? _ Hrest]; subst.
      clear Horder Hnd Hbd.
      induction rest as [| x rest IH]; [reflexivity |]. simpl.
      inversion Hrest as [| ? ? Hx Hrest']; subst.
      assert (E : below_threshold boxes t top x = false).
      { unfold below_threshold.
        destruct (Qltb (iou_val (nth top boxes no_box) (nth x boxes no_box)) t)
          eqn:Eb; [| reflexivity].
        exfalso. apply Qltb_lt in Eb. revert Eb.
        apply (Hpairs top x (nth top boxes no_box) (nth x boxes no_box)).
        - intros ->. apply Hnotin. left. reflexivity.
        - apply nth_error_nth'. lia.
        - apply nth_error_nth'. lia.
        - apply iou_ok. }
      rewrite E. apply IH; [| exact Hrest'].
      intros Hin. apply Hnotin. right. exact Hin. }
    rewrite Hnone. simp greedy_keep. reflexivity. }
  rewrite Hkeep in Hnms. cbn [map] in Hnms.
  exists (nth top boxes no_box), (nth top scores 0).
  split; [exact Hnms |]. split.
  - rewrite <- (combine_nth boxes scores top no_box 0 Hlen).
    apply nth_In. rewrite length_combine, Hlen, Nat.min_id. exact Htop.
  - intros s Hs. apply (In_nth _ _ 0) in Hs as (i & Hi & <-).
    apply Hmax, Hi.
Qed.

Lemma nms_none_below_keeps_one_witness :
  exists b s,
    non_max_suppression stable_argsort
      [mkBox 55 55 145 195; mkBox 60 60 160 210] [88 # 100; 95 # 100] (1 # 2)
    = Ok (BoxesScores [b] [s])
    /\ 88 # 100 <= s.
Proof.
  destruct (nms_none_below_keeps_one stable_argsort
              [mkBox 55 55 145 195; mkBox 60 60 160 210]
              [88 # 100; 95 # 100] (1 # 2) stable_argsort_ok)
    as (b & s & Hnms & _ & Hmax).
  - discriminate.
  - reflexivity.
  - intros i j bi bj v Hij Hi Hj Hv.
    destruct i as [| [| i]], j as [| [| j]]; simpl in Hi, Hj;
      try congruence; try (destruct i; discriminate);
      try (destruct j; discriminate);
      injection Hi as <-; injection Hj as <-;
      vm_compute in Hv; injection Hv as <-; intros H; vm_compute in H;
      discriminate.
  - exists b, s. split; [exact Hnms |]. apply Hmax. left. reflexivity.
Defined.

(** X15. A detection of a non-empty pool whose IoU with every other
    detection of the pool, taken as the kept box, is below [iou_threshold]
    is always in the output, with its own score. *)
Theorem nms_isolated_detection_kept argsort boxes scores t i :
  argsort_spec argsort ->
  length boxes = length scores -> (i < length boxes)%nat ->
  (forall j, (j < length boxes)%nat -> j <> i ->
             iou_val (nth j boxes no_box) (nth i boxes no_box) < t) ->
  exists keep bs ss k,
    nms_keep argsort boxes scores t = Ok keep
    /\ non_max_suppression argsort boxes scores t = Ok (BoxesScores bs ss)
    /\ nth_error keep k = Some i
    /\ nth_error bs k = nth_error boxes i
    /\ nth_error ss k = nth_error scores i.
Proof.
  intros Hok Hlen Hi Hiso.
  assert (Hne : boxes <> []) by (destruct boxes; [simpl in Hi; lia | discriminate]).
  destruct (non_max_suppression_greedy argsort Hok boxes scores t Hne Hlen)
    as [Hkeep Hnms].
  pose proof (processing_order_perm argsort Hok scores) as Hp.
  pose proof (processing_order_bound argsort Hok scores) as Hbd.
  rewrite Forall_forall in Hbd.
  assert (Hin : In i (greedy_keep boxes t (processing_order argsort scores))).
  { apply greedy_keep_isolated.
    - apply (Permutation_in _ (Permutation_sym Hp)), in_seq. lia.
    - intros a Ha Hai. unfold below_threshold. apply Qltb_lt, Hiso;
        [rewrite Hlen; apply Hbd, Ha | exact Hai]. }
  apply In_nth_error in Hin as [k Hk].
  eexists. eexists. eexists. exists k.
  split; [exact Hkeep |]. split; [exact Hnms |]. split; [exact Hk |].
  split.
  - rewrite (map_nth_error (fun i => nth i boxes no_box) _ _ Hk).
    symmetry. apply nth_error_nth', Hi.
  - rewrite (map_nth_error (fun i => nth i scores 0) _ _ Hk).
    symmetry. apply nth_error_nth'. lia.
Qed.

Lemma nms_isolated_detection_kept_witness :
  exists keep,
    nms_keep stable_argsort
      [mkBox 55 55 145 195; mkBox 60 60 160 210; mkBox 500 10 550 60]
      [95 # 100; 88 # 100; 80 # 100] (1 # 2) = Ok keep
    /\ In 2%nat keep.
Proof.
  destruct (nms_isolated_detection_kept stable_argsort
              [mkBox 55 55 145 195; mkBox 60 60 160 210; mkBox 500 10 550 60]
              [95 # 100; 88 # 100; 80 # 100] (1 # 2) 2 stable_argsort_ok)
    as (keep & bs & ss & k & Hkeep & _ & Hk & _).
  - reflexivity.
  - simpl. lia.
  - intros j Hj Hne. destruct j as [| [| j]]; simpl in Hj; try lia;
      vm_compute; reflexivity.
  - exists keep. split; [exact Hkeep |]. eapply nth_error_In, Hk.
Defined.

(** ** Independence of the input order *)

Lemma filter_map_comm {A B} (f : B -> bool) (g : A -> B) (l : list A) :
  filter f (map g l) = map g (filter (fun x => f (g x)) l).
Proof.
  induction l as [| x l IH]; simpl; [reflexivity |].
  destruct (f (g x)); simpl; rewrite IH; reflexivity.
Qed.

Lemma greedy_keep_detections boxes scores t idxs :
  map (fun i => (nth i boxes no_box, nth i scores 0))
    (greedy_keep boxes t idxs)
  = greedy_detections t
      (map (fun i => (nth i boxes no_box, nth i scores 0)) idxs).
Proof.
  funelim (greedy_keep boxes t idxs); simpl; simp greedy_detections;
    [reflexivity |].
  rewrite H, filter_map_comm. reflexivity.
Qed.

Lemma no_ties_FOP scores :
  no_ties scores <-> ForallOrdPairs (fun a b => ~ a == b) scores.
Proof.
  split.
  - induction scores as [| x l IH]; intros H; constructor.
    + apply Forall_forall. intros b Hb.
      apply (In_nth _ _ 0) in Hb as (k & Hk & <-).
      apply (H 0%nat (S k)); simpl; lia.
    + apply IH. intros i j Hij Hj. apply (H (S i) (S j)); simpl; lia.
  - intros H i j Hij Hj. apply (FOP_nth _ scores 0 H i j Hij Hj).
Qed.

Lemma FOP_perm {A} (R : A -> A -> Prop) (l l' : list A) :
  (forall a b, R a b -> R b a) ->
  Permutation l l' -> ForallOrdPairs R l -> ForallOrdPairs R l'.
Proof.
  intros Hsym. induction 1 as [| x l l' Hp IH | x y l | l l' l'' _ IH1 _ IH2];
    intros H.
  - constructor.
  - inversion H; subst. constructor; [| apply IH; assumption].
    eapply Permutation_Forall; eassumption.
  - inversion H as [| ? ? Hy Hxl]; subst.
    inversion Hxl as [| ? ? Hx Hl]; subst.
    inversion Hy; subst.
    repeat constructor; auto.
  - apply IH2, IH1, H.
Qed.

Lemma processing_order_strict argsort scores :
  argsort_spec argsort -> no_ties scores ->
  StronglySorted (fun i j => nth j scores 0 < nth i scores 0)
    (processing_order argsort scores).
Proof.
  intros Hok Hnt. apply FOP_StronglySorted.
  pose proof (processing_order_bound argsort Hok scores) as Hb.
  rewrite Forall_forall in Hb.
  eapply FOP_weaken;
    [| apply FOP_and;
       [apply StronglySorted_FOP, (processing_order_descending argsort Hok scores)
       | apply NoDup_iff_ForallOrdPairs, (processing_order_NoDup argsort Hok scores)]].
  intros a b Ha Hb' [Hle Hne]. cbv beta in Hle.
  apply Hb in Ha. apply Hb in Hb'.
  destruct (Nat.lt_total a b) as [Hlt | [Heq | Hgt]]; [| contradiction |].
  - pose proof (Hnt a b Hlt Hb'). lra.
  - pose proof (Hnt b a Hgt Ha). lra.
Qed.

(** A list in strictly decreasing score order is determined by its
    members. *)
Lemma descending_perm_unique (l1 l2 : list (Box * Q)) :
  StronglySorted (fun d e => snd e < snd d) l1 ->
  StronglySorted (fun d e => snd e < snd d) l2 ->
  Permutation l1 l2 -> l1 = l2.
Proof.
  intros H1. revert l2. induction H1 as [| a l1 Hs1 IH Ha]; intros l2 H2 Hp.
  - apply Permutation_nil in Hp. subst. reflexivity.
  - destruct H2 as [| b l2 Hs2 Hb].
    + symmetry in Hp. apply Permutation_nil in Hp. discriminate.
    + assert (a = b).
      { assert (Hin_a : In a (b :: l2))
          by (apply (Permutation_in _ Hp); left; reflexivity).
        assert (Hin_b : In b (a :: l1))
          by (apply (Permutation_in _ (Permutation_sym Hp)); left;
              reflexivity).
        rewrite Forall_forall in Ha, Hb.
        destruct Hin_a as [-> | Hin_a]; [reflexivity |].
        destruct Hin_b as [-> | Hin_b]; [reflexivity |].
        apply Hb in Hin_a. apply Ha in Hin_b. lra. }
      subst b. f_equal. apply IH; [exact Hs2 |].
      eapply Permutation_cons_inv, Hp.
Qed.

Lemma combine_fst_snd {A B} (l : list A) (l' : list B) :
  length l = length l' ->
  map fst (combine l l') = l /\ map snd (combine l l') = l'.
Proof.
  revert l'. induction l as [| x l IH]; intros [| y l'] H; simpl in *;
    try discriminate; [split; reflexivity |].
  destruct (IH l') as [-> ->]; [lia | split; reflexivity].
Qed.

(** The detections in processing order. *)
Lemma visited_detections argsort boxes scores :
  argsort_spec argsort -> length boxes = length scores ->
  Permutation
    (map (fun i => (nth i boxes no_box, nth i scores 0))
       (processing_order argsort scores))
    (combine boxes scores).
Proof.
  intros Hok Hlen.
  rewrite <- (combine_nth_positions boxes scores no_box 0 Hlen).
  apply Permutation_map. rewrite Hlen. apply processing_order_perm, Hok.
Qed.

Lemma visited_detections_strict argsort boxes scores :
  argsort_spec argsort -> no_ties scores ->
  StronglySorted (fun d e => snd e < snd d)
    (map (fun i => (nth i boxes no_box, nth i scores 0))
       (processing_order argsort scores)).
Proof.
  intros Hok Hnt. apply StronglySorted_map. cbn [snd].
  apply processing_order_strict; assumption.
Qed.

Lemma non_max_suppression_perm argsort boxes scores boxes' scores' t :
  argsort_spec argsort ->
  length boxes = length scores -> length boxes' = length scores' ->
  Permutation (combine boxes scores) (combine boxes' scores') ->
  no_ties scores ->
  non_max_suppression argsort boxes scores t
  = non_max_suppression argsort boxes' scores' t.
Proof.
  intros Hok Hlen Hlen' Hperm Hnt.
  assert (Hnt' : no_ties scores').
  { apply no_ties_FOP. apply no_ties_FOP in Hnt.
    refine (FOP_perm _ scores scores' _ _ Hnt).
    - intros a b H E. apply H. symmetry. exact E.
    - rewrite <- (proj2 (combine_fst_snd boxes scores Hlen)).
      rewrite <- (proj2 (combine_fst_snd boxes' scores' Hlen')).
      apply Permutation_map, Hperm. }
  destruct boxes as [| b boxes].
  - destruct boxes' as [| b' boxes']; [reflexivity |].
    destruct scores' as [| s' scores']; [discriminate |].
    destruct scores; [| discriminate].
    apply Permutation_nil in Hperm. discriminate.
  - destruct boxes' as [| b' boxes'].
    { destruct scores as [| s scores]; [discriminate |].
      symmetry in Hperm. apply Permutation_nil in Hperm. discriminate. }
    destruct (non_max_suppression_greedy argsort Hok (b :: boxes) scores t
                ltac:(discriminate) Hlen) as [_ ->].
    destruct (non_max_suppression_greedy argsort Hok (b' :: boxes') scores' t
                ltac:(discriminate) Hlen') as [_ ->].
    set (D := fun i => (nth i (b :: boxes) no_box, nth i scores 0)).
    set (D' := fun i => (nth i (b' :: boxes') no_box, nth i scores' 0)).
    set (keep := greedy_keep (b :: boxes) t (processing_order argsort scores)).
    set (keep' := greedy_keep (b' :: boxes') t
                    (processing_order argsort scores')).
    assert (E : map D keep = map D' keep').
    { unfold D, D', keep, keep'. rewrite !greedy_keep_detections. f_equal.
      apply descending_perm_unique.
      - apply visited_detections_strict; assumption.
      - apply visited_detections_strict; assumption.
      - rewrite (visited_detections argsort (b :: boxes) scores Hok Hlen).
        rewrite (visited_detections argsort (b' :: boxes') scores' Hok Hlen').
        exact Hperm. }
    assert (E1 : map fst (map D keep) = map fst (map D' keep'))
      by (rewrite E; reflexivity).
    assert (E2 : map snd (map D keep) = map snd (map D' keep'))
      by (rewrite E; reflexivity).
    rewrite !map_map in E1, E2. unfold D, D' in E1, E2. cbn [fst snd] in E1, E2.
    fold keep keep'. rewrite E1, E2. reflexivity.
Qed.

(** X16. When no two scores of a pool are equal, the result does not depend
    on the order in which the detections are listed: two pools holding the
    same detections, each box with its score, give the same output. *)
Theorem nms_order_independent argsort boxes scores boxes' scores' t :
  argsort_spec argsort ->
  length boxes = length scores -> length boxes' = length scores' ->
  Permutation (combine boxes scores) (combine boxes' scores') ->
  no_ties scores ->
  non_max_suppression argsort boxes scores t
  = non_max_suppression argsort boxes' scores' t.
Proof. apply non_max_suppression_perm. Qed.

Lemma nms_order_independent_witness :
  non_max_suppression stable_argsort
    [mkBox 55 55 145 195; mkBox 60 60 160 210; mkBox 500 10 550 60]
    [95 # 100; 88 # 100; 80 # 100] (1 # 2)
  = non_max_suppression stable_argsort
      [mkBox 500 10 550 60; mkBox 60 60 160 210; mkBox 55 55 145 195]
      [80 # 100; 88 # 100; 95 # 100] (1 # 2).
Proof.
  apply (nms_order_independent stable_argsort
           [mkBox 55 55 145 195; mkBox 60 60 160 210; mkBox 500 10 550 60]
           [95 # 100; 88 # 100; 80 # 100]
           [mkBox 500 10 550 60; mkBox 60 60 160 210; mkBox 55 55 145 195]
           [80 # 100; 88 # 100; 95 # 100] (1 # 2) stable_argsort_ok).
  - reflexivity.
  - reflexivity.
  - simpl. etransitivity; [apply perm_swap |].
    etransitivity; [apply perm_skip, perm_swap |]. apply perm_swap.
  - intros i j Hij Hj Heq.
    destruct j as [| [| [| j]]]; simpl in Hj; try lia;
      destruct i as [| [| i]]; try lia; vm_compute in Heq; discriminate.
Defined.

(** ** More on the pipeline *)

Lemma relabelled_kept filtered keep :
  Forall (fun i => (i < length filtered)%nat) keep ->
  exists finals,
    flat_map (relabelled filtered)
      (map (fun i => (nth i (map box_of filtered) no_box,
                      nth i (map pscore filtered) 0)) keep) = finals
    /\ map box_of finals = map (fun i => nth i (map box_of filtered) no_box) keep
    /\ map pscore finals = map (fun i => nth i (map pscore filtered) 0) keep
    /\ Forall (fun p => exists m, In m filtered
                                  /\ same_box_score (box_of p) (pscore p) m = true
                                  /\ pclass_id p = pclass_id m
                                  /\ pclass_name p = pclass_name m) finals.
Proof.
  induction 1 as [| i keep Hi _ (finals & E & Hb & Hs & Hc)].
  - exists []. repeat split. constructor.
  - destruct (nth_error filtered i) as [d |] eqn:Hd;
      [| apply nth_error_None in Hd; lia].
    destruct (relabelled_member filtered i d Hd)
      as (j & m & Hj & Hm & Hfm & _ & Hrel).
    exists (with_class_of (box_of d) (pscore d) m :: finals).
    cbn [map flat_map]. rewrite Hrel, E. cbn [app map].
    rewrite (nth_error_nth _ _ no_box (map_nth_error box_of _ _ Hd)).
    rewrite (nth_error_nth _ _ 0 (map_nth_error pscore _ _ Hd)).
    rewrite Hb, Hs. split; [reflexivity |].
    split; [destruct d; reflexivity |]. split; [reflexivity |].
    constructor; [| exact Hc].
    exists m. split; [eapply nth_error_In, Hm |].
    split; [| split; reflexivity].
    destruct d. exact Hfm.
Qed.

(** What the pipeline returns when the filter leaves detections: one final
    detection for each pair [non_max_suppression] returned, in the same
    order. *)
Lemma pipeline_finals argsort raw st it :
  argsort_spec argsort ->
  filter (passes st) raw <> [] ->
  exists bs ss finals,
    non_max_suppression argsort (map box_of (filter (passes st) raw))
      (map pscore (filter (passes st) raw)) it = Ok (BoxesScores bs ss)
    /\ pipeline argsort raw st it = Ok finals
    /\ map box_of finals = bs
    /\ map pscore finals = ss
    /\ Forall (fun p => exists m,
                 In m (filter (passes st) raw)
                 /\ same_box_score (box_of p) (pscore p) m = true
                 /\ pclass_id p = pclass_id m
                 /\ pclass_name p = pclass_name m) finals.
Proof.
  intros Hok Hne.
  destruct (pipeline_relabelled argsort raw st it Hok Hne) as [_ Hpipe].
  set (filtered := filter (passes st) raw) in *.
  assert (Hne' : map box_of filtered <> [])
    by (destruct filtered; [contradiction | discriminate]).
  assert (Hlen : length (map box_of filtered) = length (map pscore filtered))
    by (rewrite !length_map; reflexivity).
  destruct (non_max_suppression_greedy argsort Hok _ _ it Hne' Hlen)
    as [_ Hnms].
  set (keep := greedy_keep _ _ _) in *.
  assert (Hbound : Forall (fun i => (i < length filtered)%nat) keep).
  { apply Forall_forall. intros i Hi. apply greedy_keep_In in Hi.
    pose proof (processing_order_bound argsort Hok (map pscore filtered)) as Hb.
    rewrite Forall_forall in Hb. apply Hb in Hi.
    rewrite length_map in Hi. exact Hi. }
  destruct (relabelled_kept filtered keep Hbound) as (finals & E & Hb & Hs & Hc).
  eexists. eexists. exists finals.
  split; [exact Hnms |]. rewrite Hpipe, E. repeat split; assumption.
Qed.

Lemma filter_nonempty_iff raw st :
  filter (passes st) raw <> [] <-> exists p, In p raw /\ st <= pscore p.
Proof.
  split.
  - intros H. destruct (filter (passes st) raw) as [| p l] eqn:E;
      [contradiction |].
    assert (Hin : In p (filter (passes st) raw)) by (rewrite E; left; reflexivity).
    apply filter_In in Hin as [Hin Hp]. exists p. split; [exact Hin |].
    apply Qle_bool_iff, Hp.
  - intros (p & Hin & Hp) E.
    assert (Hf : In p (filter (passes st) raw)).
    { apply filter_In. split; [exact Hin | apply Qle_bool_iff, Hp]. }
    rewrite E in Hf. contradiction.
Qed.

Lemma filter_empty_iff raw st :
  filter (passes st) raw = [] <-> forall p, In p raw -> pscore p < st.
Proof.
  split.
  - intros E p Hin. destruct (Qlt_le_dec (pscore p) st) as [H | H];
      [exact H |].
    exfalso. apply (proj2 (filter_nonempty_iff raw st)); [| exact E].
    exists p. split; assumption.
  - intros H. destruct (filter (passes st) raw) as [| p l] eqn:E;
      [reflexivity |].
    assert (Hin : In p (filter (passes st) raw)) by (rewrite E; left; reflexivity).
    apply filter_In in Hin as [Hin Hp]. apply Qle_bool_iff in Hp.
    specialize (H p Hin). lra.
Qed.

(** X17. The pipeline raises [ValueError] exactly when no raw detection
    reaches [score_threshold]; otherwise it returns a list of final
    detections, at least one and no more than there are raw detections.  It
    never raises [IndexError] or [ZeroDivisionError]. *)
Theorem pipeline_result_cases argsort raw st it :
  argsort_spec argsort ->
  ((forall p, In p raw -> pscore p < st)
   /\ pipeline argsort raw st it = Err ValueError)
  \/ ((exists p, In p raw /\ st <= pscore p)
      /\ exists finals,
           pipeline argsort raw st it = Ok finals
           /\ (1 <= length finals)%nat /\ (length finals <= length raw)%nat).
Proof.
  intros Hok. destruct (filter (passes st) raw) as [| p0 l0] eqn:E.
  - left. split; [apply filter_empty_iff, E | apply pipeline_empty_pool, E].
  - right.
    assert (Hne : filter (passes st) raw <> []) by (rewrite E; discriminate).
    split; [apply filter_nonempty_iff, Hne |].
    destruct (pipeline_finals argsort raw st it Hok Hne)
      as (bs & ss & finals & Hnms & Hpipe & Hb & _).
    exists finals. split; [exact Hpipe |].
    assert (Hne' : map box_of (filter (passes st) raw) <> [])
      by (rewrite E; discriminate).
    assert (Hlen : length (map box_of (filter (passes st) raw))
                   = length (map pscore (filter (passes st) raw)))
      by (rewrite !length_map; reflexivity).
    destruct (non_max_suppression_greedy argsort Hok _ _ it Hne' Hlen)
      as [_ Hnms'].
    rewrite Hnms' in Hnms. injection Hnms as Hbs _.
    rewrite <- (length_map box_of finals), Hb, <- Hbs, length_map.
    pose proof (keep_nonempty argsort Hok _ _ it Hne' Hlen) as Hk.
    split; [destruct (greedy_keep _ _ _); [contradiction | simpl; lia] |].
    assert (H : (length (greedy_keep (map box_of (filter (passes st) raw)) it
                           (processing_order argsort
                              (map pscore (filter (passes st) raw))))
                 <= length (seq 0 (length (map pscore (filter (passes st) raw)))))%nat).
    { apply NoDup_incl_length.
      - apply greedy_keep_NoDup, processing_order_NoDup, Hok.
      - intros i Hi. apply greedy_keep_In in Hi.
        apply (Permutation_in _ (processing_order_perm argsort Hok _)), Hi. }
    rewrite length_seq, length_map in H.
    pose proof (filter_length_le (passes st) raw). lia.
Qed.

Lemma pipeline_result_cases_witness :
  exists finals,
    pipeline stable_argsort raw_predictions (1 # 2) (1 # 2) = Ok finals
    /\ (1 <= length finals)%nat /\ (length finals <= 8)%nat.
Proof.
  destruct (pipeline_result_cases stable_argsort raw_predictions (1 # 2)
              (1 # 2) stable_argsort_ok) as [[Hlow _] | [_ H]].
  - exfalso.
    specialize (Hlow (mkPrediction 55 55 145 195 (95 # 100) 0 "người"%string)
                  (or_introl eq_refl)).
    vm_compute in Hlow. discriminate.
  - exact H.
Defined.

Lemma StronglySorted_unmap {A B} (R : B -> B -> Prop) (f : A -> B) (l : list A) :
  StronglySorted R (map f l) -> StronglySorted (fun a b => R (f a) (f b)) l.
Proof.
  induction l as [| a l IH]; intros H; [constructor |].
  simpl in H. inversion H as [| ? ? Hs Hall]; subst.
  constructor; [apply IH, Hs |].
  rewrite Forall_forall in *. intros b Hb. apply Hall, in_map, Hb.
Qed.

(** X18. When some raw detection reaches [score_threshold], the final
    detections are, one for one and in the same order, the boxes and scores
    that [non_max_suppression] returned for the filtered detections: the
    re-matching drops none and adds none. *)
Theorem pipeline_finals_are_nms_output argsort raw st it :
  argsort_spec argsort ->
  (exists p, In p raw /\ st <= pscore p) ->
  exists bs ss finals,
    non_max_suppression argsort (map box_of (filter (passes st) raw))
      (map pscore (filter (passes st) raw)) it = Ok (BoxesScores bs ss)
    /\ pipeline argsort raw st it = Ok finals
    /\ map box_of finals = bs
    /\ map pscore finals = ss.
Proof.
  intros Hok Hex. apply filter_nonempty_iff in Hex.
  destruct (pipeline_finals argsort raw st it Hok Hex)
    as (bs & ss & finals & Hnms & Hpipe & Hb & Hs & _).
  exists bs, ss, finals. repeat split; assumption.
Qed.

Lemma pipeline_finals_are_nms_output_witness :
  exists bs ss finals,
    non_max_suppression stable_argsort
      (map box_of (filter (passes (1 # 2)) raw_predictions))
      (map pscore (filter (passes (1 # 2)) raw_predictions)) (1 # 2)
    = Ok (BoxesScores bs ss)
    /\ pipeline stable_argsort raw_predictions (1 # 2) (1 # 2) = Ok finals
    /\ map box_of finals = bs
    /\ map pscore finals = ss.
Proof.
  apply (pipeline_finals_are_nms_output stable_argsort raw_predictions
           (1 # 2) (1 # 2) stable_argsort_ok).
  exists (mkPrediction 55 55 145 195 (95 # 100) 0 "người"%string).
  split; [left; reflexivity |]. vm_compute. discriminate.
Defined.

(** X19. Every final detection has a score of at least [score_threshold]
    and the box and score of a raw detection; along the output the scores
    never increase. *)
Theorem pipeline_finals_scores argsort raw st it :
  argsort_spec argsort ->
  (exists p, In p raw /\ st <= pscore p) ->
  exists finals,
    pipeline argsort raw st it = Ok finals
    /\ Forall (fun p => st <= pscore p
                        /\ exists d, In d raw /\ box_of d = box_of p
                                     /\ pscore d = pscore p) finals
    /\ StronglySorted (fun p q => pscore q <= pscore p) finals.
Proof.
  intros Hok Hex. apply filter_nonempty_iff in Hex.
  destruct (pipeline_finals argsort raw st it Hok Hex)
    as (bs & ss & finals & Hnms & Hpipe & Hb & Hs & _).
  set (filtered := filter (passes st) raw) in *.
  assert (Hne' : map box_of filtered <> [])
    by (destruct filtered; [contradiction | discriminate]).
  assert (Hlen : length (map box_of filtered) = length (map pscore filtered))
    by (rewrite !length_map; reflexivity).
  destruct (non_max_suppression_greedy argsort Hok _ _ it Hne' Hlen)
    as [_ Hnms'].
  rewrite Hnms' in Hnms. injection Hnms as Hbs Hss.
  set (keep := greedy_keep _ _ _) in *.
  assert (Hbound : Forall (fun i => (i < length filtered)%nat) keep).
  { apply Forall_forall. intros i Hi. apply greedy_keep_In in Hi.
    pose proof (processing_order_bound argsort Hok (map pscore filtered)) as Hbd.
    rewrite Forall_forall in Hbd. apply Hbd in Hi.
    rewrite length_map in Hi. exact Hi. }
  exists finals. split; [exact Hpipe |]. split.
  - apply Forall_forall. intros p Hp.
    apply (In_nth _ _ no_prediction) in Hp as (k & Hk & <-).
    assert (Hkk : (k < length keep)%nat).
    { rewrite <- (length_map (fun i => nth i (map box_of filtered) no_box)),
        Hbs, <- Hb, length_map. exact Hk. }
    assert (Hi : (nth k keep 0 < length filtered)%nat).
    { rewrite Forall_forall in Hbound. apply Hbound, nth_In, Hkk. }
    destruct (nth_error filtered (nth k keep 0%nat)) as [d |] eqn:Hd;
      [| apply nth_error_None in Hd; lia].
    assert (Ebox : box_of (nth k finals no_prediction) = box_of d).
    { rewrite <- (map_nth box_of), Hb, <- Hbs.
      rewrite (nth_map_in _ keep k 0%nat) by exact Hkk.
      apply nth_error_nth, (map_nth_error box_of _ _ Hd). }
    assert (Escore : pscore (nth k finals no_prediction) = pscore d).
    { rewrite <- (map_nth pscore), Hs, <- Hss.
      rewrite (nth_map_in _ keep k 0%nat) by exact Hkk.
      apply nth_error_nth, (map_nth_error pscore _ _ Hd). }
    apply nth_error_In, filter_In in Hd as [Hraw Hpass].
    split; [rewrite Escore; apply Qle_bool_iff, Hpass |].
    exists d. repeat split; [exact Hraw | congruence | congruence].
  - apply (StronglySorted_unmap (fun a b => b <= a) pscore finals).
    rewrite Hs, <- Hss.
    apply (StronglySorted_map (fun a b => b <= a)
             (fun i => nth i (map pscore filtered) 0)).
    apply greedy_keep_sorted, processing_order_descending, Hok.
Qed.

Lemma pipeline_finals_scores_witness :
  exists finals,
    pipeline stable_argsort raw_predictions (1 # 2) (1 # 2) = Ok finals
    /\ Forall (fun p => 1 # 2 <= pscore p) finals.
Proof.
  destruct (pipeline_finals_scores stable_argsort raw_predictions
              (1 # 2) (1 # 2) stable_argsort_ok) as (finals & Hpipe & Hall & _).
  - exists (mkPrediction 55 55 145 195 (95 # 100) 0 "người"%string).
    split; [left; reflexivity |]. vm_compute. discriminate.
  - exists finals. split; [exact Hpipe |].
    eapply Forall_impl; [| exact Hall]. intros p [Hp _]. exact Hp.
Defined.

(** X20. Any two final detections at different positions of the output
    have an IoU strictly below [iou_threshold], whatever their classes. *)
Theorem pipeline_finals_pairwise_below argsort raw st it :
  argsort_spec argsort ->
  (exists p, In p raw /\ st <= pscore p) ->
  exists finals,
    pipeline argsort raw st it = Ok finals
    /\ forall p q f1 f2,
         p <> q -> nth_error finals p = Some f1 ->
         nth_error finals q = Some f2 ->
         exists v, iou (box_of f1) (box_of f2) = Ok v /\ v < it.
Proof.
  intros Hok Hex. apply filter_nonempty_iff in Hex.
  destruct (pipeline_finals argsort raw st it Hok Hex)
    as (bs & ss & finals & Hnms & Hpipe & Hb & Hs & _).
  set (filtered := filter (passes st) raw) in *.
  assert (Hne' : map box_of filtered <> [])
    by (destruct filtered; [contradiction | discriminate]).
  assert (Hlen : length (map box_of filtered) = length (map pscore filtered))
    by (rewrite !length_map; reflexivity).
  destruct (non_max_suppression_greedy argsort Hok _ _ it Hne' Hlen)
    as [_ Hnms'].
  rewrite Hnms' in Hnms. injection Hnms as Hbs _.
  exists finals. split; [exact Hpipe |].
  intros p q f1 f2 Hpq H1 H2.
  assert (Hlenk : length finals
                  = length (greedy_keep (map box_of filtered) it
                              (processing_order argsort (map pscore filtered)))).
  { rewrite <- (length_map box_of finals), Hb, <- Hbs, length_map.
    reflexivity. }
  pose proof (kept_pairs_below argsort (map box_of filtered)
                (map pscore filtered) it Hlen p q) as Hbelow.
  rewrite <- Hlenk in Hbelow.
  specialize (Hbelow (nth_error_lt _ _ _ H1) (nth_error_lt _ _ _ H2) Hpq).
  rewrite Hbs, <- Hb in Hbelow. unfold below_threshold in Hbelow.
  rewrite (nth_error_nth _ _ no_box (map_nth_error box_of _ _ H1)) in Hbelow.
  rewrite (nth_error_nth _ _ no_box (map_nth_error box_of _ _ H2)) in Hbelow.
  exists (iou_val (box_of f1) (box_of f2)).
  split; [apply iou_ok | apply Qltb_lt, Hbelow].
Qed.

Lemma pipeline_finals_pairwise_below_witness :
  exists finals,
    pipeline stable_argsort raw_predictions (1 # 2) (1 # 2) = Ok finals
    /\ (2 <= length finals)%nat.
Proof.
  destruct (pipeline_finals_pairwise_below stable_argsort raw_predictions
              (1 # 2) (1 # 2) stable_argsort_ok) as (finals & Hpipe & _).
  - exists (mkPrediction 55 55 145 195 (95 # 100) 0 "người"%string).
    split; [left; reflexivity |]. vm_compute. discriminate.
  - exists finals. split; [exact Hpipe |].
    assert (E : Ok finals = main stable_argsort) by (symmetry; exact Hpipe).
    vm_compute in E. injection E as ->. simpl. lia.
Defined.

(** ** Pools and raw lists without equal scores *)

Lemma FOP_map {A B} (R : B -> B -> Prop) (f : A -> B) (l : list A) :
  ForallOrdPairs R (map f l) <-> ForallOrdPairs (fun a b => R (f a) (f b)) l.
Proof.
  induction l as [| a l IH]; simpl; split; intros H; try constructor;
    inversion H as [| ? ? Hall Hrest]; subst.
  - rewrite Forall_forall in *. intros b Hb. apply Hall, in_map, Hb.
  - apply IH, Hrest.
  - rewrite Forall_forall in *. intros b Hb.
    apply in_map_iff in Hb as (x & <- & Hx). apply Hall, Hx.
  - apply IH, Hrest.
Qed.

Lemma FOP_filter {A} (R : A -> A -> Prop) (f : A -> bool) (l : list A) :
  ForallOrdPairs R l -> ForallOrdPairs R (filter f l).
Proof.
  induction 1 as [| a l Ha _ IH]; simpl; [constructor |].
  destruct (f a); [| exact IH].
  constructor; [apply Forall_filter_keep, Ha | exact IH].
Qed.

Lemma Permutation_filter_same {A} (f : A -> bool) (l l' : list A) :
  Permutation l l' -> Permutation (filter f l) (filter f l').
Proof.
  induction 1 as [| x l l' _ IH | x y l | l l' l'' _ IH1 _ IH2]; simpl.
  - constructor.
  - destruct (f x); [apply perm_skip |]; exact IH.
  - destruct (f x), (f y); try reflexivity. apply perm_swap.
  - etransitivity; eassumption.
Qed.

Lemma find_unique_perm {A} (f : A -> bool) (l l' : list A) :
  Permutation l l' ->
  (forall x y, In x l -> In y l -> f x = true -> f y = true -> x = y) ->
  find f l = find f l'.
Proof.
  intros Hp Huniq.
  destruct (find f l) as [x |] eqn:E1, (find f l') as [y |] eqn:E2.
  - apply find_some in E1 as [Hx Hfx]. apply find_some in E2 as [Hy Hfy].
    f_equal. apply Huniq; try assumption.
    apply (Permutation_in _ (Permutation_sym Hp)), Hy.
  - apply find_some in E1 as [Hx Hfx].
    rewrite (find_none _ _ E2 x (Permutation_in _ Hp Hx)) in Hfx. discriminate.
  - apply find_some in E2 as [Hy Hfy].
    rewrite (find_none _ _ E1 y (Permutation_in _ (Permutation_sym Hp) Hy))
      in Hfy. discriminate.
  - reflexivity.
Qed.

(** Among detections with pairwise different scores, a box and a score
    match at most one. *)
Lemma same_box_score_unique filtered b s x y :
  no_ties (map pscore filtered) ->
  In x filtered -> In y filtered ->
  same_box_score b s x = true -> same_box_score b s y = true -> x = y.
Proof.
  intros Hnt Hx Hy Hfx Hfy.
  apply no_ties_FOP in Hnt.
  apply (proj1 (FOP_map (fun a b => ~ a == b) pscore filtered)) in Hnt.
  unfold same_box_score in Hfx, Hfy.
  apply andb_true_iff in Hfx as [_ Hfx]. apply andb_true_iff in Hfy as [_ Hfy].
  apply Qeq_bool_iff in Hfx. apply Qeq_bool_iff in Hfy.
  destruct (ForallOrdPairs_In Hnt x y Hx Hy) as [E | [E | E]];
    [exact E | exfalso; apply E; lra | exfalso; apply E; lra].
Qed.

Lemma no_ties_filter raw st :
  no_ties (map pscore raw) -> no_ties (map pscore (filter (passes st) raw)).
Proof.
  intros H. apply no_ties_FOP.
  apply (proj2 (FOP_map (fun a b => ~ a == b) pscore _)), FOP_filter.
  apply (proj1 (FOP_map (fun a b => ~ a == b) pscore raw)), no_ties_FOP, H.
Qed.

Lemma pipeline_perm argsort raw raw' st it :
  argsort_spec argsort ->
  Permutation raw raw' -> no_ties (map pscore raw) ->
  pipeline argsort raw st it = pipeline argsort raw' st it.
Proof.
  intros Hok Hp Hnt.
  pose proof (Permutation_filter_same (passes st) raw raw' Hp) as HpF.
  pose proof (no_ties_filter raw st Hnt) as HntF.
  unfold pipeline. rewrite !score_filter_columns. cbn [bind].
  set (F := filter (passes st) raw) in *.
  set (F' := filter (passes st) raw') in *.
  cbn [split_columns c_boxes c_scores].
  rewrite (non_max_suppression_perm argsort (map box_of F) (map pscore F)
             (map box_of F') (map pscore F') it Hok).
  - destruct (non_max_suppression argsort (map box_of F') (map pscore F') it)
      as [[| bs ss] | e]; cbn [bind unpack_pair raise ret]; try reflexivity.
    cbn [fst snd].
    change (mkColumns (map box_of F) (map pscore F) (map pclass_id F)
              (map pclass_name F)) with (split_columns F).
    change (mkColumns (map box_of F') (map pscore F') (map pclass_id F')
              (map pclass_name F')) with (split_columns F').
    rewrite !reassemble_flat_map. do 2 f_equal.
    apply flat_map_ext. intros [b s]. unfold relabelled. cbn [fst snd].
    rewrite (find_unique_perm (same_box_score b s) F F' HpF); [reflexivity |].
    intros x y. apply same_box_score_unique, HntF.
  - rewrite !length_map. reflexivity.
  - rewrite !length_map. reflexivity.
  - rewrite !combine_map_same. apply Permutation_map, HpF.
  - exact HntF.
Qed.

(** X21. When no two raw scores are equal, the pipeline's outcome does not
    depend on the order of the raw detections: two raw lists with the same
    members give the same final detections (or the same error). *)
Theorem pipeline_order_independent argsort raw raw' st it :
  argsort_spec argsort ->
  Permutation raw raw' -> no_ties (map pscore raw) ->
  pipeline argsort raw st it = pipeline argsort raw' st it.
Proof. apply pipeline_perm. Qed.

Lemma pipeline_order_independent_witness :
  pipeline stable_argsort
    [mkPrediction 55 55 145 195 (95 # 100) 0 "người"%string;
     mkPrediction 405 205 545 395 (90 # 100) 1 "xe"%string] (1 # 2) (1 # 2)
  = pipeline stable_argsort
      [mkPrediction 405 205 545 395 (90 # 100) 1 "xe"%string;
       mkPrediction 55 55 145 195 (95 # 100) 0 "người"%string] (1 # 2) (1 # 2).
Proof.
  apply (pipeline_order_independent stable_argsort
           [mkPrediction 55 55 145 195 (95 # 100) 0 "người"%string;
            mkPrediction 405 205 545 395 (90 # 100) 1 "xe"%string]
           [mkPrediction 405 205 545 395 (90 # 100) 1 "xe"%string;
            mkPrediction 55 55 145 195 (95 # 100) 0 "người"%string]
           (1 # 2) (1 # 2) stable_argsort_ok).
  - apply perm_swap.
  - intros i j Hij Hj Heq.
    destruct j as [| [| j]]; simpl in Hj; try lia;
      destruct i as [| i]; try lia; vm_compute in Heq; discriminate.
Defined.

Lemma relabelled_origin filtered keep :
  Forall (fun i => (i < length filtered)%nat) keep ->
  Forall (fun p => exists d m,
            In d filtered /\ In m filtered
            /\ same_box_score (box_of d) (pscore d) m = true
            /\ p = with_class_of (box_of d) (pscore d) m)
    (flat_map (relabelled filtered)
       (map (fun i => (nth i (map box_of filtered) no_box,
                       nth i (map pscore filtered) 0)) keep)).
Proof.
  induction 1 as [| i keep Hi _ IH]; [constructor |].
  destruct (nth_error filtered i) as [d |] eqn:Hd;
    [| apply nth_error_None in Hd; lia].
  destruct (relabelled_member filtered i d Hd)
    as (j & m & Hj & Hm & Hfm & _ & Hrel).
  cbn [map flat_map]. rewrite Hrel. cbn [app]. constructor; [| exact IH].
  exists d, m. split; [eapply nth_error_In, Hd |].
  split; [eapply nth_error_In, Hm |]. split; [exact Hfm | reflexivity].
Qed.

(** X22. When no two raw scores are equal and some raw detection reaches
    [score_threshold], every final detection is one of the raw detections,
    with its own class_id and class_name. *)
Theorem pipeline_finals_are_raw argsort raw st it :
  argsort_spec argsort ->
  no_ties (map pscore raw) ->
  (exists p, In p raw /\ st <= pscore p) ->
  exists finals,
    pipeline argsort raw st it = Ok finals
    /\ Forall (fun p => In p raw /\ st <= pscore p) finals.
Proof.
  intros Hok Hnt Hex. apply filter_nonempty_iff in Hex.
  destruct (pipeline_relabelled argsort raw st it Hok Hex) as [_ Hpipe].
  set (filtered := filter (passes st) raw) in *.
  set (keep := greedy_keep _ _ _) in *.
  assert (Hbound : Forall (fun i => (i < length filtered)%nat) keep).
  { apply Forall_forall. intros i Hi. apply greedy_keep_In in Hi.
    pose proof (processing_order_bound argsort Hok (map pscore filtered)) as Hb.
    rewrite Forall_forall in Hb. apply Hb in Hi.
    rewrite length_map in Hi. exact Hi. }
  eexists. split; [exact Hpipe |].
  eapply Forall_impl; [| apply (relabelled_origin filtered keep Hbound)].
  intros p (d & m & Hd & Hm & Hfm & ->).
  assert (E : d = m).
  { apply (same_box_score_unique filtered (box_of d) (pscore d));
      try assumption; [apply no_ties_filter, Hnt | apply same_box_score_self]. }
  subst m. rewrite with_class_of_self.
  apply filter_In in Hd as [Hraw Hpass].
  split; [exact Hraw | apply Qle_bool_iff, Hpass].
Qed.

Lemma pipeline_finals_are_raw_witness :
  exists finals,
    pipeline stable_argsort raw_predictions (1 # 2) (1 # 2) = Ok finals
    /\ Forall (fun p => In p raw_predictions /\ 1 # 2 <= pscore p) finals.
Proof.
  apply (pipeline_finals_are_raw stable_argsort raw_predictions (1 # 2)
           (1 # 2) stable_argsort_ok).
  - apply no_ties_FOP. simpl.
    repeat first [ apply FOP_nil | apply FOP_cons | apply Forall_nil
                 | apply Forall_cons
                 | (intro Heq; vm_compute in Heq; discriminate) ].
  - exists (mkPrediction 55 55 145 195 (95 # 100) 0 "người"%string).
    split; [left; reflexivity |]. vm_compute. discriminate.
Defined.

(** ** Composing score filters *)

Lemma passes_both t1 t2 p :
  passes t1 p && passes t2 p = passes (Py.max t1 t2) p.
Proof.
  unfold passes.
  destruct (pymax_cases t1 t2) as [[H ->] | [H ->]];
    destruct (Qle_bool t1 (pscore p)) eqn:E1,
             (Qle_bool t2 (pscore p)) eqn:E2; try reflexivity;
    try (apply Qle_bool_iff in E1); try (apply Qle_bool_iff in E2);
    exfalso.
  - assert (E : Qle_bool t1 (pscore p) = true) by (apply Qle_bool_iff; lra).
    congruence.
  - assert (E : Qle_bool t2 (pscore p) = true) by (apply Qle_bool_iff; lra).
    congruence.
Qed.

Lemma filter_filter {A} (f g : A -> bool) (l : list A) :
  filter g (filter f l) = filter (fun x => f x && g x) l.
Proof.
  induction l as [| x l IH]; simpl; [reflexivity |].
  destruct (f x); simpl; [destruct (g x) |]; rewrite IH; reflexivity.
Qed.

(** X23. Filtering the output of the score filter again, with a second
    threshold, gives what one filter at the larger of the two thresholds
    gives; with the same threshold the second pass changes nothing. *)
Theorem score_filter_twice raw t1 t2 :
  (filtered <- score_filter (split_columns raw) t1 ;; score_filter filtered t2)
  = score_filter (split_columns raw) (Py.max t1 t2)
  /\ (filtered <- score_filter (split_columns raw) t1 ;;
      score_filter filtered t1)
     = score_filter (split_columns raw) t1.
Proof.
  assert (H : forall a b,
             (filtered <- score_filter (split_columns raw) a ;;
              score_filter filtered b)
             = score_filter (split_columns raw) (Py.max a b)).
  { intros a b. rewrite !score_filter_columns. cbn [bind].
    rewrite score_filter_columns, filter_filter. do 2 f_equal.
    apply filter_ext. intros p. apply passes_both. }
  split; [apply H |]. rewrite H.
  unfold Py.max. destruct (Qltb t1 t1); reflexivity.
Qed.

(** X24. With a non-empty [boxes] and no score at all, the loop is never
    entered and [non_max_suppression] returns the pair of two empty lists,
    not the bare empty list it returns for an empty [boxes]. *)
Theorem nms_no_scores_returns_empty_pair argsort boxes t :
  argsort_spec argsort -> boxes <> [] ->
  non_max_suppression argsort boxes [] t = Ok (BoxesScores [] [])
  /\ non_max_suppression argsort [] [] t = Ok EmptyList.
Proof.
  intros Hok Hne. split; [| reflexivity].
  destruct (non_max_suppression_greedy_le argsort boxes [] t Hok Hne)
    as [_ H]; [simpl; lia |].
  rewrite H.
  pose proof (processing_order_perm argsort Hok []) as Hp.
  apply Permutation_sym, Permutation_nil in Hp. rewrite Hp.
  simp greedy_keep. reflexivity.
Qed.

Lemma nms_no_scores_returns_empty_pair_witness :
  non_max_suppression stable_argsort [mkBox 0 0 1 1] [] (1 # 2)
  = Ok (BoxesScores [] []).
Proof.
  apply (nms_no_scores_returns_empty_pair stable_argsort [mkBox 0 0 1 1]
           (1 # 2) stable_argsort_ok).
  discriminate.
Defined.

(** ** [iou] in binary64 *)

(** X25. In binary64 as well, [iou] returns for every two boxes, whatever
    their coordinates (NaN and infinities included): it returns 0 when the
    union area it computed is a zero of either sign, and otherwise the
    quotient of the two areas, whose divisor is then not a zero, so that the
    division never raises [ZeroDivisionError]. *)
Theorem iou64_never_divides_by_zero (A B : Box64) :
  exists v,
    iou64 A B = Ok v
    /\ (F64.eqb (union64 A B) F64.zero = true -> v = F64.zero)
    /\ (F64.eqb (union64 A B) F64.zero = false ->
        F64.truediv (intersection64 A B) (union64 A B) = Ok v).
Proof.
  exists (iou64_val A B). split; [apply iou64_ok |].
  unfold iou64_val, F64.truediv.
  destruct (F64.eqb (union64 A B) F64.zero); split; intros H;
    try discriminate; reflexivity.
Qed.

Lemma iou64_never_divides_by_zero_witness :
  exists v, iou64 Sample64.big Sample64.big = Ok v /\ is_nan v = true.
Proof.
  destruct (iou64_never_divides_by_zero Sample64.big Sample64.big)
    as (v & Hv & _ & Hdiv).
  exists v. split; [exact Hv |].
  assert (E : F64.truediv (intersection64 Sample64.big Sample64.big)
                (union64 Sample64.big Sample64.big) = Ok v)
    by (apply Hdiv; vm_compute; reflexivity).
  vm_compute in E. injection E as <-. reflexivity.
Defined.
